(** * Feed filtering, thread building and the posts cache of myAtmosphere

    Shallow embedding of [src/src/utils/bluesky.ts]
    ([filterPostsForSelfOnlyThreads], [isReplyInSelfOnlyThread],
    [groupPostsIntoThreads]) and of the localStorage cache
    ([src/unnamed/part_000], class [Cache]). *)

From stdpp Require Import base gmap sets list strings.
From Stdlib Require Import ZArith Sorted Permutation Ascii Relations.

Open Scope Z_scope.
#[local] Set Warnings "-register-all".

(* ------------------------------------------------------------------ *)
(** ** Data model (the interfaces of bluesky.ts) *)
(* ------------------------------------------------------------------ *)

Record BlueskyAuthor := mkAuthor {
  did : string;
  handle : string;
}.

(** [record.reply]: [{ parent: { uri }, root: { uri } }]. *)
Record ReplyRef := mkReplyRef {
  parent_uri : string;
  root_uri : string;
}.

(** [BlueskyRecord]. [text] is declared [string], but the filter tests it
    against [undefined], so the embedding keeps it optional. *)
Record BlueskyRecord := mkRecord {
  text : option string;
  reply : option ReplyRef;
  record_type : option string;   (* [$type] *)
}.

(** [BlueskyPost]; [indexedAt] is kept as the number of milliseconds
    [new Date(post.indexedAt).getTime()] yields. *)
Record BlueskyPost := mkPost {
  uri : string;
  cid : string;
  author : BlueskyAuthor;
  record : BlueskyRecord;
  indexedAt : Z;
}.

(** [reason]: only its [$type] is read. *)
Record Reason := mkReason { reason_type : string }.

Record BlueskyFeedItem := mkFeedItem {
  post : BlueskyPost;
  reason : option Reason;
}.

(** [BlueskyThreadItem]: a feed item with its replies. *)
Inductive BlueskyThreadItem :=
  mkThreadItem (thread_item : BlueskyFeedItem)
               (children : list BlueskyThreadItem)
               (isThreadRoot : bool).

Definition thread_uri (t : BlueskyThreadItem) : string :=
  match t with mkThreadItem it _ _ => uri (post it) end.

(** What [fetch(.../app.bsky.feed.getPostThread?uri=...&depth=0)] followed
    by [parentResponse.json()] and [parentData.thread.post] yields:
    a non-ok status; a rejected [fetch]/[json] or a missing [thread]
    (an exception, caught by the [try]); or a [thread] whose [post] may
    be absent (the API answers a blocked or not-found view without it). *)
Inductive ThreadResponse :=
  | RespNotOk (status : Z)
  | RespError
  | RespThread (thread_post : option BlueskyPost).

(** The network: the answer of the post-thread endpoint for a URI. *)
Abbreviation Lookup := (string -> ThreadResponse).

Definition REASON_REPOST : string := "app.bsky.feed.defs#reasonRepost".
Definition RECORD_REPOST : string := "app.bsky.feed.repost".

(* ------------------------------------------------------------------ *)
(** ** [isReplyInSelfOnlyThread] *)
(* ------------------------------------------------------------------ *)

(** [checkedAuthors.size === 1 && checkedAuthors.has(userDid)] *)
Definition self_only (checkedAuthors : gset string) (userDid : string) : bool :=
  bool_decide (size checkedAuthors = 1%nat) && bool_decide (userDid ∈ checkedAuthors).

(** One iteration of [while (currentPost) { ... }] per unit of [fuel];
    [None] means the loop has not finished within [fuel] iterations (the
    source loop has no bound). Each [return false] of the body, and the
    [catch] branch, is [Some false]; leaving the loop ([break], or
    [currentPost] becoming [undefined]) runs the final size check. *)
Fixpoint walk_chain (fuel : nat) (lookup : Lookup) (userDid : string)
    (currentPost : BlueskyPost) (checkedAuthors : gset string) : option bool :=
  match fuel with
  | O => None
  | S fuel' =>
      let checked := {[ did (author currentPost) ]} ∪ checkedAuthors in
      if negb (String.eqb (did (author currentPost)) userDid) then Some false
      else
        match reply (record currentPost) with
        | None => Some (self_only checked userDid)
        | Some r =>
            match lookup (parent_uri r) with
            | RespNotOk _ => Some false
            | RespError => Some false
            | RespThread None => Some (self_only checked userDid)
            | RespThread (Some parent) =>
                walk_chain fuel' lookup userDid parent checked
            end
        end
  end.

Definition isReplyInSelfOnlyThread (fuel : nat) (lookup : Lookup)
    (p : BlueskyPost) (userDid : string) : option bool :=
  walk_chain fuel lookup userDid p ∅.

(* ------------------------------------------------------------------ *)
(** ** [filterPostsForSelfOnlyThreads] *)
(* ------------------------------------------------------------------ *)

Definition is_repost_reason (item : BlueskyFeedItem) : bool :=
  match reason item with
  | Some r => String.eqb (reason_type r) REASON_REPOST
  | None => false
  end.

Definition is_repost_record (p : BlueskyPost) : bool :=
  match record_type (record p) with
  | Some t => String.eqb t RECORD_REPOST
  | None => false
  end.

(** The [for ... of] loop with its [await]s: [None] when some chain walk
    does not finish within [fuel]. *)
Fixpoint filterPostsForSelfOnlyThreads (fuel : nat) (lookup : Lookup)
    (feedItems : list BlueskyFeedItem) (userDid : string)
    : option (list BlueskyFeedItem) :=
  match feedItems with
  | [] => Some []
  | item :: rest =>
      let p := post item in
      let keep := filterPostsForSelfOnlyThreads fuel lookup rest userDid in
      if is_repost_reason item then keep
      else if is_repost_record p then keep
      else
        match text (record p) with
        | None => keep
        | Some _ =>
            match reply (record p) with
            | None => option_map (cons item) keep
            | Some _ =>
                match isReplyInSelfOnlyThread fuel lookup p userDid with
                | None => None
                | Some true => option_map (cons item) keep
                | Some false => keep
                end
            end
        end
  end.

(* ------------------------------------------------------------------ *)
(** ** [groupPostsIntoThreads] *)
(* ------------------------------------------------------------------ *)

(** [Array.prototype.sort] with a comparator returning a number: the
    sort is stable, so for a comparator that is a difference of keys its
    result is the one of this stable insertion sort ([x] stays before [y]
    when [cmp x y <= 0]). *)
Fixpoint insert_sorted {A} (cmp : A -> A -> Z) (x : A) (l : list A) : list A :=
  match l with
  | [] => [x]
  | y :: ys => if cmp x y <=? 0 then x :: y :: ys else y :: insert_sorted cmp x ys
  end.

Fixpoint array_sort {A} (cmp : A -> A -> Z) (l : list A) : list A :=
  match l with
  | [] => []
  | x :: xs => insert_sorted cmp x (array_sort cmp xs)
  end.

(** The [BlueskyThreadItem] objects made by the first pass live in an
    arena: the node made for the [i]-th entry has id [i] and holds a copy
    of that entry; its mutable fields ([children], [isThreadRoot]) are
    kept as functions of the node id, so that the sharing of the objects
    (one object reachable from [postMap], from [threadRoots] and from a
    parent's [children]) is the sharing of the id. *)
Record Arena := mkArena {
  arena_children : nat -> list nat;
  arena_root : nat -> bool;
}.

Definition upd {A} (f : nat -> A) (k : nat) (v : A) : nat -> A :=
  fun x => if Nat.eqb x k then v else f x.

Definition set_children (ar : Arena) (n : nat) (cs : list nat) : Arena :=
  mkArena (upd (arena_children ar) n cs) (arena_root ar).

Definition set_root (ar : Arena) (n : nat) : Arena :=
  mkArena (arena_children ar) (upd (arena_root ar) n true).

(** [parent.children.push(postData)] *)
Definition push_child (ar : Arena) (pid nid : nat) : Arena :=
  set_children ar pid (arena_children ar pid ++ [nid]).

(** First pass: [postMap.set(item.post.uri, {...item, children: [],
    isThreadRoot: false})]; a later entry with the same URI replaces the
    earlier one in the map. *)
Fixpoint index_posts (i : nat) (posts : list BlueskyFeedItem)
    (postMap : gmap string nat) : gmap string nat :=
  match posts with
  | [] => postMap
  | item :: rest => index_posts (S i) rest (<[uri (post item) := i]> postMap)
  end.

Definition empty_arena : Arena := mkArena (fun _ => []) (fun _ => false).

(** Second pass, one entry. *)
Definition build_step (postMap : gmap string nat)
    (st : Arena * list nat) (item : BlueskyFeedItem) : Arena * list nat :=
  let '(ar, threadRoots) := st in
  let p := post item in
  match postMap !! uri p with
  | None => st
  | Some nid =>
      match reply (record p) with
      | Some r =>
          match postMap !! parent_uri r with
          | Some pid => (push_child ar pid nid, threadRoots)
          | None => (set_root ar nid, threadRoots ++ [nid])
          end
      | None => (set_root ar nid, threadRoots ++ [nid])
      end
  end.

Definition build_pass (postMap : gmap string nat) (posts : list BlueskyFeedItem)
    : Arena * list nat :=
  fold_left (build_step postMap) posts (empty_arena, []).

(** [new Date(x.post.indexedAt).getTime()] of a node. *)
Definition node_ts (posts : list BlueskyFeedItem) (n : nat) : Z :=
  match posts !! n with Some it => indexedAt (post it) | None => 0 end.

Definition newest_first (posts : list BlueskyFeedItem) (a b : nat) : Z :=
  node_ts posts b - node_ts posts a.

Definition oldest_first (posts : list BlueskyFeedItem) (a b : nat) : Z :=
  node_ts posts a - node_ts posts b.

(** [children.forEach] over a callback that may not return. *)
Fixpoint forEach_opt {S} (g : nat -> S -> option S) (cs : list nat) (s : S)
    : option S :=
  match cs with
  | [] => Some s
  | c :: cs' => match g c s with Some s' => forEach_opt g cs' s' | None => None end
  end.

(** [sortThreadChildren]: sorts the node's [children] array in place, then
    recurses into the (sorted) children; [fuel] bounds the recursion depth
    ([None]: the recursion does not return, as on a cycle of nodes). *)
Fixpoint sortThreadChildren (posts : list BlueskyFeedItem) (fuel : nat)
    (n : nat) (ar : Arena) : option Arena :=
  match fuel with
  | O => None
  | S fuel' =>
      let ar1 := set_children ar n
                   (array_sort (oldest_first posts) (arena_children ar n)) in
      forEach_opt (sortThreadChildren posts fuel') (arena_children ar1 n) ar1
  end.

(** The result: the sorted [threadRoots] and the arena holding the nodes. *)
Definition groupPostsIntoThreads (fuel : nat) (posts : list BlueskyFeedItem)
    : option (list nat * Arena) :=
  let postMap := index_posts 0 posts ∅ in
  let '(ar, threadRoots) := build_pass postMap posts in
  let roots := array_sort (newest_first posts) threadRoots in
  match forEach_opt (sortThreadChildren posts fuel) roots ar with
  | Some ar' => Some (roots, ar')
  | None => None
  end.

(* ------------------------------------------------------------------ *)
(** ** The localStorage cache (class [Cache]) *)
(* ------------------------------------------------------------------ *)

Record PostsCacheData := mkPostsCacheData {
  cached_posts : list BlueskyThreadItem;
  cached_cursor : option string;
  cached_handle : string;
}.

Record ProfileData := mkProfileData {
  profile_did : string;
  profile_handle : string;
  profile_avatar : option string;
}.

(** The values the cache stores: [posts_<handle>] keys hold
    [PostsCacheData], [profile_<handle>] keys hold profiles. *)
Inductive CacheData :=
  | PostsCache (d : PostsCacheData)
  | ProfileCache (d : ProfileData).

(** A localStorage string under a cache key: the [JSON.stringify] of a
    [CacheItem] ([data], [timestamp], [expiry]), the empty string, or a
    text [JSON.parse] rejects. *)
Inductive StoredValue :=
  | StoredItem (data : CacheData) (timestamp expiry : Z)
  | StoredEmpty
  | StoredMalformed.

Abbreviation Storage := (gmap string StoredValue).

Module Cache.

Definition CACHE_PREFIX : string := "bskyweb_cache_".
Definition DEFAULT_TTL : Z := 5 * 60 * 1000.
Definition POSTS_TTL : Z := 2 * 60 * 1000.
Definition PROFILE_TTL : Z := 30 * 60 * 1000.

Definition getKey (key : string) : string := String.append CACHE_PREFIX key.

(** [Date.now() > item.timestamp + item.expiry] *)
Definition isExpired (now timestamp expiry : Z) : bool :=
  timestamp + expiry <? now.

(** [ttl || this.DEFAULT_TTL] *)
Definition ttl_or_default (ttl : option Z) : Z :=
  match ttl with
  | Some t => if t =? 0 then DEFAULT_TTL else t
  | None => DEFAULT_TTL
  end.

(** [set]: [localStorage.setItem] of the new item; a failing [setItem]
    (quota exceeded), which the [catch] swallows, is not modelled. *)
Definition set (now : Z) (key : string) (data : CacheData) (ttl : option Z)
    (st : Storage) : Storage :=
  <[ getKey key := StoredItem data now (ttl_or_default ttl) ]> st.

Definition delete (key : string) (st : Storage) : Storage :=
  base.delete (getKey key) st.

(** [get]: a missing or empty string is [!cached]; an unparsable one makes
    [JSON.parse] throw, which the [catch] turns into [null]. *)
Definition get (now : Z) (key : string) (st : Storage) : option CacheData * Storage :=
  match st !! getKey key with
  | None => (None, st)
  | Some StoredEmpty => (None, st)
  | Some StoredMalformed => (None, st)
  | Some (StoredItem data timestamp expiry) =>
      if isExpired now timestamp expiry then (None, delete key st)
      else (Some data, st)
  end.

Definition posts_key (handle : string) : string := String.append "posts_" handle.

Definition getPosts (now : Z) (handle : string) (st : Storage)
    : option PostsCacheData * Storage :=
  match get now (posts_key handle) st with
  | (Some (PostsCache d), st') => (Some d, st')
  | (_, st') => (None, st')
  end.

Definition setPosts (now : Z) (handle : string) (posts : list BlueskyThreadItem)
    (cursor : option string) (isInitial : bool) (st : Storage) : Storage :=
  let key := posts_key handle in
  if isInitial then
    set now key (PostsCache (mkPostsCacheData posts cursor handle)) (Some POSTS_TTL) st
  else
    match getPosts now handle st with
    | (Some existing, st1) =>
        set now key (PostsCache (mkPostsCacheData (cached_posts existing ++ posts)
                                                  cursor handle)) (Some POSTS_TTL) st1
    | (None, st1) =>
        set now key (PostsCache (mkPostsCacheData posts cursor handle)) (Some POSTS_TTL) st1
    end.

Definition appendPosts (now : Z) (handle : string) (newPosts : list BlueskyThreadItem)
    (newCursor : option string) (st : Storage) : Storage :=
  match getPosts now handle st with
  | (Some existing, st1) =>
      let existingUris : gset string := list_to_set (map thread_uri (cached_posts existing)) in
      let uniqueNewPosts :=
        List.filter (fun t => negb (bool_decide (thread_uri t ∈ existingUris))) newPosts in
      if (0 <? length uniqueNewPosts)%nat then
        set now (posts_key handle)
            (PostsCache (mkPostsCacheData (cached_posts existing ++ uniqueNewPosts)
                                          newCursor handle)) (Some POSTS_TTL) st1
      else st1
  | (None, st1) => st1
  end.

(** JavaScript truthiness of a [string | null] cursor. *)
Definition truthy (c : option string) : bool :=
  match c with Some s => negb (String.eqb s "") | None => false end.

(** The cache traffic of [fetchUserPosts(handle, cursor, limit, useCache)]:
    [page] and [nextCursor] stand for what the network part (handle
    resolution, feed page, filter, thread building, avatars) produced. *)
Definition fetchUserPosts (now : Z) (handle : string) (cursor : option string)
    (useCache : bool) (page : list BlueskyThreadItem) (nextCursor : option string)
    (st : Storage) : (list BlueskyThreadItem * option string) * Storage :=
  let fetched st1 :=
    ((page, nextCursor),
     if useCache then setPosts now handle page nextCursor (negb (truthy cursor)) st1
     else st1) in
  if useCache && negb (truthy cursor) then
    match getPosts now handle st with
    | (Some cached, st1) => ((cached_posts cached, cached_cursor cached), st1)
    | (None, st1) => fetched st1
    end
  else fetched st.

(** [preloadNextBatch(handle, fetchUserPosts)]: [net c] is the page the
    network part returns for cursor [c]. Each [Date.now()] is its own
    time: [now] for the [getPosts] before the [await], [fetchedAt] for the
    write of [fetchUserPosts] once the page has arrived, and [appendedAt]
    for the [appendPosts] after the [await] returns. *)
Definition preloadNextBatch (now fetchedAt appendedAt : Z) (handle : string)
    (net : string -> list BlueskyThreadItem * option string) (st : Storage) : Storage :=
  match getPosts now handle st with
  | (Some cached, st1) =>
      match cached_cursor cached with
      | Some c => if String.eqb c "" then st1 else
          let '((posts, cursor), st2) :=
            fetchUserPosts fetchedAt handle (Some c) true (fst (net c)) (snd (net c)) st1 in
          if (0 <? length posts)%nat then appendPosts appendedAt handle posts cursor st2 else st2
      | None => st1
      end
  | (None, st1) => st1
  end.

(** [clear]: every key of [Object.keys(localStorage)] that starts with
    the prefix is removed; other keys are left alone. *)
Definition clear (st : Storage) : Storage :=
  filter (fun kv : string * StoredValue => String.prefix CACHE_PREFIX kv.1 = false) st.

Definition profile_key (handle : string) : string := String.append "profile_" handle.

Definition setProfile (now : Z) (handle : string) (profile : ProfileData) (st : Storage)
    : Storage :=
  set now (profile_key handle) (ProfileCache profile) (Some PROFILE_TTL) st.

Definition getProfile (now : Z) (handle : string) (st : Storage) : option ProfileData * Storage :=
  match get now (profile_key handle) st with
  | (Some (ProfileCache d), st') => (Some d, st')
  | (_, st') => (None, st')
  end.

(** [getCacheFreshness]: the raw entry under [posts_<handle>] is parsed
    without any expiry check or eviction; [Some (isFresh, age)]. *)
Definition getCacheFreshness (now : Z) (handle : string) (st : Storage) : option (bool * Z) :=
  match st !! getKey (posts_key handle) with
  | Some (StoredItem _ timestamp _) =>
      let age := now - timestamp in Some (age <? POSTS_TTL, age)
  | _ => None
  end.

End Cache.

(* ------------------------------------------------------------------ *)
(** ** Profiles: [fetchUserProfile] and [fetchProfileData] *)
(* ------------------------------------------------------------------ *)

(** What [fetch(.../app.bsky.actor.getProfile?actor=...)] followed by
    [response.json()] yields: a non-ok status, a rejected promise, or a
    profile. *)
Inductive ProfileResponse :=
  | ProfileNotOk (status : Z)
  | ProfileFailed
  | ProfileOk (profile : ProfileData).

(** [fetchUserProfile(handle)]: [now] is the clock at the cache check,
    [later] the clock when the response has been read (the time of the
    [setProfile] write). A non-ok status throws and is caught: [null]. *)
Definition fetchUserProfile (now later : Z) (handle : string) (response : ProfileResponse)
    (st : Storage) : option ProfileData * Storage :=
  match Cache.getProfile now handle st with
  | (Some cached, st1) => (Some cached, st1)
  | (None, st1) =>
      match response with
      | ProfileOk profile => (Some profile, Cache.setProfile later handle profile st1)
      | _ => (None, st1)
      end
  end.

(** [fetchProfileData(did)]: the same cache use, keyed by the DID; a
    non-ok status falls through to [return null]. *)
Definition fetchProfileData (now later : Z) (did : string) (response : ProfileResponse)
    (st : Storage) : option ProfileData * Storage :=
  match Cache.getProfile now did st with
  | (Some cached, st1) => (Some cached, st1)
  | (None, st1) =>
      match response with
      | ProfileOk profileData => (Some profileData, Cache.setProfile later did profileData st1)
      | ProfileNotOk _ => (None, st1)
      | ProfileFailed => (None, st1)
      end
  end.

(* ------------------------------------------------------------------ *)
(** ** [getPostUrl] *)
(* ------------------------------------------------------------------ *)

(** [s.split("/")]: the pieces between the slashes (always at least one). *)
Fixpoint split_slash (s : string) : list string :=
  match s with
  | EmptyString => [EmptyString]
  | String c rest =>
      let parts := split_slash rest in
      if Ascii.eqb c "/"%char then EmptyString :: parts
      else match parts with
           | [] => [String c EmptyString]
           | w :: ws => String c w :: ws
           end
  end.

Definition PROFILE_BASE : string := "https://bsky.app/profile/".

(** [getPostUrl(uri, handle)]: [uri.split("/").pop()] is the last piece. *)
Definition getPostUrl (uri handle : string) : string :=
  let postId := List.last (split_slash uri) EmptyString in
  String.append PROFILE_BASE (String.append handle (String.append "/post/" postId)).

Definition slash_free (s : string) : bool :=
  forallb (fun c => negb (Ascii.eqb c "/"%char)) (String.list_ascii_of_string s).

(* ------------------------------------------------------------------ *)
(** ** [extractImages] *)
(* ------------------------------------------------------------------ *)

Record EmbedImage := mkImage {
  fullsize : string;
  thumb : string;
  alt : option string;
}.

Record EmbedMedia := mkMedia {
  media_type : string;                (* [$type] *)
  media_images : option (list EmbedImage);
}.

(** [BlueskyEmbed]; its [record] field is not read by [extractImages]. *)
Record BlueskyEmbed := mkEmbed {
  embed_type : string;                (* [$type] *)
  embed_images : option (list EmbedImage);
  embed_media : option EmbedMedia;
}.

Definition IMAGES_VIEW : string := "app.bsky.embed.images#view".
Definition RECORD_WITH_MEDIA_VIEW : string := "app.bsky.embed.recordWithMedia#view".

(** [extractImages(embed)]; an array is truthy even when empty. *)
Definition extractImages (embed : option BlueskyEmbed) : list string :=
  match embed with
  | None => []
  | Some e =>
      match String.eqb (embed_type e) IMAGES_VIEW, embed_images e with
      | true, Some images => map fullsize images
      | _, _ =>
          match String.eqb (embed_type e) RECORD_WITH_MEDIA_VIEW, embed_media e with
          | true, Some media =>
              match String.eqb (media_type media) IMAGES_VIEW, media_images media with
              | true, Some images => map fullsize images
              | _, _ => []
              end
          | _, _ => []
          end
      end
  end.

(* ------------------------------------------------------------------ *)
(** ** [formatDate] *)
(* ------------------------------------------------------------------ *)

(** The strings [formatDate] returns: ["now"], [`${diffMinutes}m`],
    [`${diffHours}h`], [`${diffDays}d`], or [date.toLocaleDateString(...)]. *)
Inductive DateLabel :=
  | LabelNow
  | LabelMinutes (m : Z)
  | LabelHours (h : Z)
  | LabelDays (d : Z)
  | LabelLocale.

(** [formatDate(dateString)]: [now] is [now.getTime()] and [date] is
    [date.getTime()], [None] when [dateString] does not parse ([NaN]: every
    comparison below is false). [Math.floor] of the quotient of integer
    milliseconds is [Z.div] for differences below 2^45 ms. *)
Definition formatDate (now : Z) (date : option Z) : DateLabel :=
  match date with
  | None => LabelLocale
  | Some d =>
      let diffMs := now - d in
      let diffMinutes := diffMs / (1000 * 60) in
      let diffHours := diffMs / (1000 * 60 * 60) in
      let diffDays := diffMs / (1000 * 60 * 60 * 24) in
      if diffMinutes <? 1 then LabelNow
      else if diffMinutes <? 60 then LabelMinutes diffMinutes
      else if diffHours <? 24 then LabelHours diffHours
      else if diffDays <? 7 then LabelDays diffDays
      else LabelLocale
  end.

(* ------------------------------------------------------------------ *)
(** ** [formatPostText] *)
(* ------------------------------------------------------------------ *)

(** A JavaScript string as its UTF-16 code units. *)
Abbreviation JSString := (list Z).

(** A string literal (ASCII) as code units. *)
Definition units (s : string) : JSString :=
  map (fun c => Z.of_nat (Ascii.nat_of_ascii c)) (String.list_ascii_of_string s).

Record FacetFeature := mkFeature {
  feature_type : string;              (* [$type] *)
  feature_uri : option JSString;
  feature_did : option JSString;
}.

(** A facet: [index.byteStart], [index.byteEnd], [features]. *)
Record Facet := mkFacet {
  byteStart : Z;
  byteEnd : Z;
  features : list FacetFeature;
}.

Definition LINK_FEATURE : string := "app.bsky.richtext.facet#link".
Definition MENTION_FEATURE : string := "app.bsky.richtext.facet#mention".

(** [${x}] of a [string | undefined]. *)
Definition template (x : option JSString) : JSString :=
  match x with Some s => s | None => units "undefined" end.

Definition dq : JSString := [34].

(** The rest of the opening tag: the [target] and [rel] attributes. *)
Definition anchor_rest : JSString :=
  units " target=" ++ dq ++ units "_blank" ++ dq ++ units " rel=" ++ dq ++
  units "noopener noreferrer" ++ dq ++ units ">".

Definition link_html (href facetText : JSString) : JSString :=
  units "<a href=" ++ dq ++ href ++ dq ++ anchor_rest ++ facetText ++ units "</a>".

Definition mention_html (did facetText : JSString) : JSString :=
  units "<a href=" ++ dq ++ units "https://bsky.app/profile/" ++ did ++ dq ++ anchor_rest ++
  facetText ++ units "</a>".

(** The index [String.prototype.slice] uses: a negative index counts from
    the end, and the result is clamped to [[0, len]]. *)
Definition rel_index (len x : Z) : Z :=
  if x <? 0 then Z.max (len + x) 0 else Z.min x len.

(** [s.slice(start, end)] *)
Definition slice (s : JSString) (start end_ : Z) : JSString :=
  let len := Z.of_nat (length s) in
  let from := rel_index len start in
  let to := rel_index len end_ in
  firstn (Z.to_nat (to - from)) (skipn (Z.to_nat from) s).

(** [s.slice(start)] *)
Definition slice_from (s : JSString) (start : Z) : JSString :=
  slice s start (Z.of_nat (length s)).

(** [for (const feature of facet.features)]: the first link or mention
    feature rebuilds the text and [break]s; without one the text stays. *)
Fixpoint apply_features (fs : list FacetFeature)
    (beforeText facetText afterText formattedText : JSString) : JSString :=
  match fs with
  | [] => formattedText
  | feature :: rest =>
      if String.eqb (feature_type feature) LINK_FEATURE then
        beforeText ++ link_html (template (feature_uri feature)) facetText ++ afterText
      else if String.eqb (feature_type feature) MENTION_FEATURE then
        beforeText ++ mention_html (template (feature_did feature)) facetText ++ afterText
      else apply_features rest beforeText facetText afterText formattedText
  end.

(** One iteration of [for (const facet of sortedFacets)]. *)
Definition apply_facet (formattedText : JSString) (facet : Facet) : JSString :=
  let beforeText := slice formattedText 0 (byteStart facet) in
  let facetText := slice formattedText (byteStart facet) (byteEnd facet) in
  let afterText := slice_from formattedText (byteEnd facet) in
  apply_features (features facet) beforeText facetText afterText formattedText.

(** [(a, b) => b.index.byteStart - a.index.byteStart] *)
Definition by_start_desc (a b : Facet) : Z := byteStart b - byteStart a.

(** [.replace(/\n/g, "<br>")] *)
Definition newlines_to_br (s : JSString) : JSString :=
  flat_map (fun c => if c =? 10 then units "<br>" else [c]) s.

(** The branch with facets. *)
Definition format_facets (text : JSString) (facets : list Facet) : JSString :=
  newlines_to_br (fold_left apply_facet (array_sort by_start_desc facets) text).

(** [formatPostText(text, facets)]: [facets] is [None] for [undefined]
    (the default [[]]) and for [null]. [linkify] stands for the three
    regular-expression replacements of the branch without facets (URLs,
    e-mail addresses, bare domains), which are not embedded here. *)
Definition formatPostText (linkify : JSString -> JSString) (text : JSString)
    (facets : option (list Facet)) : JSString :=
  match facets with
  | None => newlines_to_br (linkify text)
  | Some [] => newlines_to_br (linkify text)
  | Some fs => format_facets text fs
  end.

(** The anchor a facet makes of its text when it has a link or mention
    feature; its text unchanged otherwise. *)
Definition decorate (f : Facet) (facetText : JSString) : JSString :=
  apply_features (features f) [] facetText [] facetText.

(** The text from [pos] on with each facet of [fs] (in increasing order)
    replaced by [decorate]: the pieces between facets are kept. *)
Fixpoint render_facets (text : JSString) (pos : Z) (fs : list Facet) : JSString :=
  match fs with
  | [] => slice_from text pos
  | f :: rest =>
      slice text pos (byteStart f) ++ decorate f (slice text (byteStart f) (byteEnd f)) ++
      render_facets text (byteEnd f) rest
  end.

(** The facets are non-empty, in increasing order, do not overlap, start
    at [pos] or later and end within [len]. *)
Fixpoint facets_disjoint (len pos : Z) (fs : list Facet) : bool :=
  match fs with
  | [] => true
  | f :: rest =>
      (pos <=? byteStart f) && (byteStart f <? byteEnd f) && (byteEnd f <=? len) &&
      facets_disjoint len (byteEnd f) rest
  end.

Definition has_anchor_feature (fs : list FacetFeature) : bool :=
  existsb (fun f => String.eqb (feature_type f) LINK_FEATURE ||
                    String.eqb (feature_type f) MENTION_FEATURE) fs.

(* ------------------------------------------------------------------ *)
(** ** Ancestor chains as the lookups reveal them *)
(* ------------------------------------------------------------------ *)

(** The chain from [p] up to its root is authored by [userDid] alone, and
    every parent lookup on the way answers with the parent post. *)
Inductive self_chain (lookup : Lookup) (userDid : string) : BlueskyPost -> Prop :=
  | SC_root p :
      did (author p) = userDid -> reply (record p) = None ->
      self_chain lookup userDid p
  | SC_up p r q :
      did (author p) = userDid -> reply (record p) = Some r ->
      lookup (parent_uri r) = RespThread (Some q) ->
      self_chain lookup userDid q -> self_chain lookup userDid p.

(** Some post of the chain of [p] (reached through answered parent
    lookups) has an author other than [userDid]. *)
Inductive chain_has_foreign (lookup : Lookup) (userDid : string) : BlueskyPost -> Prop :=
  | CF_here p :
      did (author p) <> userDid -> chain_has_foreign lookup userDid p
  | CF_up p r q :
      reply (record p) = Some r ->
      lookup (parent_uri r) = RespThread (Some q) ->
      chain_has_foreign lookup userDid q -> chain_has_foreign lookup userDid p.

(** One turn of the walk that goes on: [p] is a post of [userDid] whose
    parent lookup answers with the post [q]. *)
Definition parent_step (lookup : Lookup) (userDid : string) (p q : BlueskyPost) : Prop :=
  did (author p) = userDid /\
  exists r, reply (record p) = Some r /\ lookup (parent_uri r) = RespThread (Some q).

(** Following parent steps from [p], the chain reaches, after finitely
    many of them, a post that stops the walk: one by another author, a
    root, or one whose parent lookup fails (non-ok status or exception)
    or answers a view without a post. *)
Inductive walk_ends (lookup : Lookup) (userDid : string) : BlueskyPost -> Prop :=
  | WE_foreign p :
      did (author p) <> userDid -> walk_ends lookup userDid p
  | WE_root p :
      did (author p) = userDid -> reply (record p) = None -> walk_ends lookup userDid p
  | WE_not_ok p r status :
      did (author p) = userDid -> reply (record p) = Some r ->
      lookup (parent_uri r) = RespNotOk status -> walk_ends lookup userDid p
  | WE_error p r :
      did (author p) = userDid -> reply (record p) = Some r ->
      lookup (parent_uri r) = RespError -> walk_ends lookup userDid p
  | WE_postless p r :
      did (author p) = userDid -> reply (record p) = Some r ->
      lookup (parent_uri r) = RespThread None -> walk_ends lookup userDid p
  | WE_up p q :
      parent_step lookup userDid p q -> walk_ends lookup userDid q -> walk_ends lookup userDid p.

(* ------------------------------------------------------------------ *)
(** ** Concrete feeds *)
(* ------------------------------------------------------------------ *)

Definition me : string := "did:plc:me".
Definition someone_else : string := "did:plc:other".

Definition mk_post (u a : string) (parent : option string) (ty : option string)
    (t : Z) : BlueskyPost :=
  mkPost u "cid" (mkAuthor a "h")
    (mkRecord (Some "text") (option_map (fun pu => mkReplyRef pu pu) parent) ty) t.

Definition plain (p : BlueskyPost) : BlueskyFeedItem := mkFeedItem p None.

(** A root post of [me] and a reply of [me] to it. *)
Definition root_post : BlueskyPost := mk_post "at://r" me None None 10.
Definition reply_post (ty : option string) : BlueskyPost :=
  mk_post "at://x" me (Some "at://r") ty 20.

Definition lookup_root : Lookup :=
  fun u => if String.eqb u "at://r" then RespThread (Some root_post) else RespNotOk 404.

(** The parent lookup succeeds but the thread view carries no [post]. *)
Definition lookup_postless : Lookup := fun _ => RespThread None.

(** A chain of [n + 1] posts of [me]: [chain_post n] replies to
    [chain_post (n - 1)], ..., [chain_post 0] is the root. *)
Fixpoint chain_uri (n : nat) : string :=
  match n with O => "r" | S k => String.String (Ascii.ascii_of_nat 97) (chain_uri k) end.

Definition chain_post (n : nat) : BlueskyPost :=
  mkPost (chain_uri n) "cid" (mkAuthor me "h")
    (mkRecord (Some "text")
       (match n with O => None | S k => Some (mkReplyRef (chain_uri k) "r") end) None) 0.

Definition chain_lookup : Lookup :=
  fun u => RespThread (Some (chain_post (pred (String.length u)))).

(** A post of [me] that names itself as its parent. *)
Definition cyclic_post : BlueskyPost := mk_post "at://c" me (Some "at://c") None 0.
Definition cyclic_lookup : Lookup := fun _ => RespThread (Some cyclic_post).

(** A reply of [me] to [root_post] whose record has no [text]. *)
Definition textless_reply : BlueskyPost :=
  mkPost "at://y" "cid" (mkAuthor me "h")
    (mkRecord None (Some (mkReplyRef "at://r" "at://r")) None) 30.

(** What the filter decides about the entries of [feedItems], given its
    output [out]. *)
Definition filter_decides (lookup : Lookup) (userDid : string)
    (feedItems out : list BlueskyFeedItem) : Prop :=
  (forall it, is_repost_reason it = true -> ~ In it out) /\
  (forall it, reply (record (post it)) <> None ->
     chain_has_foreign lookup userDid (post it) ->
     ~ In it out /\
     exists fuel, isReplyInSelfOnlyThread fuel lookup (post it) userDid = Some false) /\
  (forall it, In it feedItems ->
     is_repost_reason it = false -> is_repost_record (post it) = false ->
     text (record (post it)) <> None -> reply (record (post it)) <> None ->
     self_chain lookup userDid (post it) ->
     In it out /\
     exists fuel, isReplyInSelfOnlyThread fuel lookup (post it) userDid = Some true).

(** A mixed feed: a root, a repost of it, an own reply, a reply of
    someone else to it and a reply of [me] to that foreign reply. *)
Definition foreign_reply : BlueskyPost := mk_post "at://f" someone_else (Some "at://r") None 30.
Definition reply_to_foreign : BlueskyPost := mk_post "at://g" me (Some "at://f") None 40.

Definition lookup_mixed : Lookup :=
  fun u => if String.eqb u "at://r" then RespThread (Some root_post)
           else if String.eqb u "at://f" then RespThread (Some foreign_reply)
           else RespNotOk 404.

Definition mixed_feed : list BlueskyFeedItem :=
  [plain reply_to_foreign; plain foreign_reply; plain (reply_post None);
   mkFeedItem root_post (Some (mkReason REASON_REPOST)); plain root_post].

(** The posts list stored under [posts_<handle>], read without the
    expiry check. *)
Definition stored_posts (h : string) (st : Storage) : option (list BlueskyThreadItem) :=
  match st !! Cache.getKey (Cache.posts_key h) with
  | Some (StoredItem (PostsCache d) _ _) => Some (cached_posts d)
  | _ => None
  end.

Definition thread_of (p : BlueskyPost) : BlueskyThreadItem := mkThreadItem (plain p) [] true.

Definition post_a : BlueskyPost := mk_post "at://a" me None None 1.
Definition post_b : BlueskyPost := mk_post "at://b" me None None 2.
Definition post_c : BlueskyPost := mk_post "at://c" me None None 3.

(** A live posts entry for handle ["h"], written at time [0]. *)
Definition posts_store (ps : list BlueskyThreadItem) (cur : option string) : Storage :=
  {[ Cache.getKey (Cache.posts_key "h") :=
       StoredItem (PostsCache (mkPostsCacheData ps cur "h")) 0 Cache.POSTS_TTL ]}.

(** A session: page 1 ([a]) cached with cursor ["c1"]; the scroll
    handler's [preloadNextBatch(HANDLE, fetchUserPosts)] fetches page 2
    ([b]); the app's own [cursor] state is still ["c1"], so
    [fetchMorePosts] then calls [fetchUserPosts(HANDLE, "c1", 25, true)]. *)
Definition page2 : string -> list BlueskyThreadItem * option string :=
  fun _ => ([thread_of post_b], Some "c2").

Definition session : Storage :=
  let st1 := Cache.preloadNextBatch 1 1 1 "h" page2 (posts_store [thread_of post_a] (Some "c1")) in
  snd (Cache.fetchUserPosts 2 "h" (Some "c1") true [thread_of post_b] (Some "c2") st1).

Definition empty_posts : PostsCacheData := mkPostsCacheData [] None "h".
Definition ttl_store : Storage := {[ Cache.getKey "k" := StoredItem (PostsCache empty_posts) 0 3 ]}.
Definition malformed_store : Storage := {[ Cache.getKey "k" := StoredMalformed ]}.

(** The node [postMap] holds for an entry's URI (every entry's URI is
    in the map). *)
Definition node_of (postMap : gmap string nat) (it : BlueskyFeedItem) : nat :=
  default 0%nat (postMap !! uri (post it)).

(** The entry is a reply whose parent URI maps to node [pid]. *)
Definition attached_to (postMap : gmap string nat) (pid : nat) (it : BlueskyFeedItem) : bool :=
  match reply (record (post it)) with
  | Some r => bool_decide (postMap !! parent_uri r = Some pid)
  | None => false
  end.

(** The entry is top-level, or a reply whose parent URI is not in the map. *)
Definition unattached (postMap : gmap string nat) (it : BlueskyFeedItem) : bool :=
  match reply (record (post it)) with
  | Some r => bool_decide (postMap !! parent_uri r = None)
  | None => true
  end.

(** [m] lies in the tree below [n] (or is [n]) for the children arrays [ch]. *)
Inductive reach (ch : nat -> list nat) : nat -> nat -> Prop :=
  | reach_refl n : reach ch n n
  | reach_step n c m : In c (ch n) -> reach ch c m -> reach ch n m.

(** While [sortThreadChildren] runs, every children array is either
    still the one the second pass built ([pre]) or its sorted form. *)
Definition children_inv (posts : list BlueskyFeedItem) (pre : nat -> list nat) (ar : Arena) : Prop :=
  forall m, arena_children ar m = pre m \/
            arena_children ar m = array_sort (oldest_first posts) (pre m).

Definition children_sorted_at (posts : list BlueskyFeedItem) (pre : nat -> list nat)
    (ar : Arena) (m : nat) : Prop :=
  arena_children ar m = array_sort (oldest_first posts) (pre m).

(** The shape of the output of [groupPostsIntoThreads]: which entries are
    roots and which are children of which node. *)
Definition thread_shape (posts : list BlueskyFeedItem) (roots : list nat) (ar : Arena) : Prop :=
  let pm := index_posts 0 posts ∅ in
  Permutation roots (map (node_of pm) (List.filter (unattached pm) posts)) /\
  (forall pid, Permutation (arena_children ar pid)
                 (map (node_of pm) (List.filter (attached_to pm pid) posts))) /\
  (forall it, In it posts ->
     pm !! uri (post it) = Some (node_of pm it) /\
     (exists it', posts !! node_of pm it = Some it' /\ uri (post it') = uri (post it)) /\
     match reply (record (post it)) with
     | Some r =>
         match pm !! parent_uri r with
         | Some pid =>
             In (node_of pm it) (arena_children ar pid) /\
             exists par, posts !! pid = Some par /\ uri (post par) = parent_uri r
         | None => In (node_of pm it) roots
         end
     | None => In (node_of pm it) roots
     end).

(** The order of the output of [groupPostsIntoThreads]: roots newest
    first, the children of every node of the forest oldest first, equal
    timestamps in feed order. *)
Definition thread_order (posts : list BlueskyFeedItem) (roots : list nat) (ar : Arena) : Prop :=
  let pm := index_posts 0 posts ∅ in
  let ts := node_ts posts in
  Sorted (fun a b => ts b <= ts a) roots /\
  (forall t, List.filter (fun n => ts n =? t) roots =
             List.filter (fun n => ts n =? t) (map (node_of pm) (List.filter (unattached pm) posts))) /\
  (forall r m, In r roots -> reach (arena_children ar) r m ->
     Sorted (fun a b => ts a <= ts b) (arena_children ar m) /\
     forall t, List.filter (fun n => ts n =? t) (arena_children ar m) =
               List.filter (fun n => ts n =? t)
                 (map (node_of pm) (List.filter (attached_to pm m) posts))).

(** The thread of the spec's example: root R (t = 10) with replies C1
    (t = 20) and C2 (t = 15), next to an independent root at t = 5 and
    one at t = 8. *)
Definition feed_R : BlueskyPost := mk_post "at://R" me None None 10.
Definition feed_C1 : BlueskyPost := mk_post "at://C1" me (Some "at://R") None 20.
Definition feed_C2 : BlueskyPost := mk_post "at://C2" me (Some "at://R") None 15.
Definition feed_t5 : BlueskyPost := mk_post "at://t5" me None None 5.
Definition feed_t8 : BlueskyPost := mk_post "at://t8" me None None 8.
Definition thread_feed : list BlueskyFeedItem :=
  [plain feed_t5; plain feed_R; plain feed_C1; plain feed_C2; plain feed_t8].

(** Every path below [n] in the children arrays [ch] has fewer than
    [fuel] nodes, so [sortThreadChildren] with [fuel] returns. *)
Fixpoint depth_bounded (ch : nat -> list nat) (fuel n : nat) : Prop :=
  match fuel with
  | O => False
  | S f => forall c, In c (ch n) -> depth_bounded ch f c
  end.

(** The node of the parent of the entry at position [c], if it has one. *)
Definition parent_node (posts : list BlueskyFeedItem) (pm : gmap string nat) (c : nat)
    : option nat :=
  match posts !! c with
  | Some it =>
      match reply (record (post it)) with
      | Some r => pm !! parent_uri r
      | None => None
      end
  | None => None
  end.

(** [l] lists a node, its parent, its grandparent, and so on up to a node
    with no parent. *)
Definition parent_chain (par : nat -> option nat) (l : list nat) : Prop :=
  forall i x, l !! i = Some x -> par x = l !! S i.

(** A text with one link and one mention facet. *)
Definition sample_text : JSString := units "see example.com and @bob".
Definition sample_facets : list Facet :=
  [mkFacet 4 15 [mkFeature LINK_FEATURE (Some (units "https://example.com")) None];
   mkFacet 20 24 [mkFeature MENTION_FEATURE None (Some (units "did:plc:bob"))]].

(** A reply to itself, next to a top-level post. *)
Definition self_reply_post : BlueskyPost := mk_post "at://s" me (Some "at://s") None 1.
Definition self_reply_feed : list BlueskyFeedItem := [plain self_reply_post; plain root_post].

(* ================================================================== *)
(** * Properties *)
(* ================================================================== *)

(** ** The chain walk *)

Lemma self_only_user (u : string) (checked : gset string) :
  checked ⊆ {[u]} -> self_only ({[u]} ∪ checked) u = true.
Proof.
  intros Hsub. assert (Heq : {[u]} ∪ checked = ({[u]} : gset string)) by set_solver.
  rewrite Heq. unfold self_only. rewrite size_singleton.
  rewrite !bool_decide_eq_true_2; [done | set_solver | done].
Qed.

Lemma walk_self_chain_not_false (lookup : Lookup) (u : string) (p : BlueskyPost) :
  self_chain lookup u p ->
  forall fuel (checked : gset string), checked ⊆ {[u]} ->
  walk_chain fuel lookup u p checked <> Some false.
Proof.
  induction 1 as [p Ha Hr | p r q Ha Hr Hl Hq IH]; intros [|fuel] checked Hsub;
    simpl; try discriminate; rewrite Ha, String.eqb_refl; simpl.
  - rewrite Hr, self_only_user by done. congruence.
  - rewrite Hr, Hl. apply IH. set_solver.
Qed.

Lemma walk_self_chain_true (lookup : Lookup) (u : string) (p : BlueskyPost) :
  self_chain lookup u p ->
  exists fuel, forall (checked : gset string), checked ⊆ {[u]} ->
  walk_chain fuel lookup u p checked = Some true.
Proof.
  induction 1 as [p Ha Hr | p r q Ha Hr Hl Hq [fuel IH]].
  - exists 1%nat. intros checked Hsub. simpl. rewrite Ha, String.eqb_refl, Hr. simpl.
    by rewrite self_only_user.
  - exists (S fuel). intros checked Hsub. simpl. rewrite Ha, String.eqb_refl, Hr, Hl. simpl.
    apply IH. set_solver.
Qed.

Lemma walk_foreign_not_true (lookup : Lookup) (u : string) (p : BlueskyPost) :
  chain_has_foreign lookup u p ->
  forall fuel (checked : gset string), walk_chain fuel lookup u p checked <> Some true.
Proof.
  induction 1 as [p Ha | p r q Hr Hl Hq IH]; intros [|fuel] checked; simpl; try discriminate.
  - destruct (String.eqb_spec (did (author p)) u); [contradiction | discriminate].
  - destruct (String.eqb (did (author p)) u); simpl; [|discriminate].
    rewrite Hr, Hl. apply IH.
Qed.

Lemma walk_foreign_false (lookup : Lookup) (u : string) (p : BlueskyPost) :
  chain_has_foreign lookup u p ->
  exists fuel, forall (checked : gset string), walk_chain fuel lookup u p checked = Some false.
Proof.
  induction 1 as [p Ha | p r q Hr Hl Hq [fuel IH]].
  - exists 1%nat. intros checked. simpl.
    destruct (String.eqb_spec (did (author p)) u); [contradiction | done].
  - exists (S fuel). intros checked. simpl.
    destruct (String.eqb (did (author p)) u); simpl; [|done].
    rewrite Hr, Hl. apply IH.
Qed.

(** ** The filter *)

Lemma filter_kept (fuel : nat) (lookup : Lookup) (items out : list BlueskyFeedItem)
    (u : string) (it : BlueskyFeedItem) :
  filterPostsForSelfOnlyThreads fuel lookup items u = Some out ->
  In it out ->
  In it items /\ is_repost_reason it = false /\ is_repost_record (post it) = false /\
  text (record (post it)) <> None /\
  (reply (record (post it)) = None \/
   isReplyInSelfOnlyThread fuel lookup (post it) u = Some true).
Proof.
  revert out. induction items as [|x rest IH]; intros out Hf Hin; simpl in Hf.
  - injection Hf as <-. destruct Hin.
  - destruct (is_repost_reason x) eqn:E1.
    { destruct (IH out Hf Hin) as [? ?]; simpl; tauto. }
    destruct (is_repost_record (post x)) eqn:E2.
    { destruct (IH out Hf Hin) as [? ?]; simpl; tauto. }
    destruct (text (record (post x))) eqn:E3.
    2: { destruct (IH out Hf Hin) as [? ?]; simpl; tauto. }
    destruct (filterPostsForSelfOnlyThreads fuel lookup rest u) as [out'|] eqn:Er.
    2: { destruct (reply (record (post x)));
         [destruct (isReplyInSelfOnlyThread fuel lookup (post x) u) as [[|]|]|];
         discriminate. }
    destruct (reply (record (post x))) eqn:E4.
    + destruct (isReplyInSelfOnlyThread fuel lookup (post x) u) as [[|]|] eqn:E5;
        simpl in Hf; try discriminate.
      * injection Hf as <-. destruct Hin as [<-|Hin].
        -- split; [left; done|]. split; [done|]. split; [done|]. split; [congruence|]. right; done.
        -- destruct (IH out' eq_refl Hin); simpl; tauto.
      * injection Hf as ->. destruct (IH out eq_refl Hin); simpl; tauto.
    + simpl in Hf. injection Hf as <-. destruct Hin as [<-|Hin].
      * split; [left; done|]. split; [done|]. split; [done|]. split; [congruence|]. left; done.
      * destruct (IH out' eq_refl Hin); simpl; tauto.
Qed.

Lemma filter_includes (fuel : nat) (lookup : Lookup) (items out : list BlueskyFeedItem)
    (u : string) (it : BlueskyFeedItem) :
  In it items ->
  is_repost_reason it = false -> is_repost_record (post it) = false ->
  text (record (post it)) <> None ->
  isReplyInSelfOnlyThread fuel lookup (post it) u <> Some false ->
  filterPostsForSelfOnlyThreads fuel lookup items u = Some out ->
  In it out.
Proof.
  revert out. induction items as [|x rest IH]; intros out Hin H1 H2 H3 H4 Hf;
    [destruct Hin|]; simpl in Hf.
  destruct Hin as [->|Hin].
  - rewrite H1, H2 in Hf. destruct (text (record (post it))); [|congruence].
    destruct (reply (record (post it))).
    + destruct (isReplyInSelfOnlyThread fuel lookup (post it) u) as [[|]|];
        [|congruence|discriminate].
      destruct (filterPostsForSelfOnlyThreads fuel lookup rest u); simpl in Hf;
        [|discriminate]. injection Hf as <-. left; done.
    + destruct (filterPostsForSelfOnlyThreads fuel lookup rest u); simpl in Hf;
        [|discriminate]. injection Hf as <-. left; done.
  - destruct (is_repost_reason x); [eauto|].
    destruct (is_repost_record (post x)); [eauto|].
    destruct (text (record (post x))); [|eauto].
    destruct (filterPostsForSelfOnlyThreads fuel lookup rest u) as [out'|] eqn:Er.
    + specialize (IH out' Hin H1 H2 H3 H4 eq_refl).
      destruct (reply (record (post x))).
      * destruct (isReplyInSelfOnlyThread fuel lookup (post x) u) as [[|]|];
          simpl in Hf; try discriminate; [injection Hf as <-; right|injection Hf as ->]; done.
      * simpl in Hf. injection Hf as <-. right; done.
    + destruct (reply (record (post x)));
        [destruct (isReplyInSelfOnlyThread fuel lookup (post x) u) as [[|]|]|];
        discriminate.
Qed.

(** [C10] The filter only selects: its output is a subsequence
    ([sublist]) of the input feed, entries unmodified and in their input
    order. *)
Theorem filter_sublist (fuel : nat) (lookup : Lookup)
    (feedItems out : list BlueskyFeedItem) (userDid : string) :
  filterPostsForSelfOnlyThreads fuel lookup feedItems userDid = Some out ->
  sublist out feedItems.
Proof.
  revert out. induction feedItems as [|x rest IH]; intros out Hf; simpl in Hf.
  - injection Hf as <-. constructor.
  - destruct (is_repost_reason x); [apply sublist_cons; auto|].
    destruct (is_repost_record (post x)); [apply sublist_cons; auto|].
    destruct (text (record (post x))); [|apply sublist_cons; auto].
    destruct (filterPostsForSelfOnlyThreads fuel lookup rest userDid) as [out'|] eqn:Er.
    + destruct (reply (record (post x))).
      * destruct (isReplyInSelfOnlyThread fuel lookup (post x) userDid) as [[|]|];
          simpl in Hf; try discriminate.
        -- injection Hf as <-. apply sublist_skip. auto.
        -- injection Hf as ->. apply sublist_cons. auto.
      * simpl in Hf. injection Hf as <-. apply sublist_skip. auto.
    + destruct (reply (record (post x)));
        [destruct (isReplyInSelfOnlyThread fuel lookup (post x) userDid) as [[|]|]|];
        discriminate.
Qed.

Lemma filter_sublist_witness :
  filterPostsForSelfOnlyThreads 3 lookup_root
    [plain root_post; mkFeedItem root_post (Some (mkReason REASON_REPOST));
     plain (reply_post None)] me = Some [plain root_post; plain (reply_post None)] /\
  sublist [plain root_post; plain (reply_post None)]
    [plain root_post; mkFeedItem root_post (Some (mkReason REASON_REPOST));
     plain (reply_post None)].
Proof.
  split; [vm_compute; reflexivity|].
  apply (filter_sublist 3 lookup_root _ _ me). vm_compute. reflexivity.
Defined.

(** [C1] (amended) For every output [out] of the filter: an entry with a
    repost marker is not in [out]; a reply whose ancestor chain holds an
    author other than the target account is not in [out] (its walk ends in
    rejection); and a reply of the feed whose whole chain is the target's
    own, every parent lookup answering with the parent, is in [out] (its
    walk ends in acceptance) provided it carries no repost marker, its
    record [$type] is not [app.bsky.feed.repost] and its record has text. *)
Theorem filter_exclusion_inclusion (fuel : nat) (lookup : Lookup)
    (feedItems out : list BlueskyFeedItem) (userDid : string) :
  filterPostsForSelfOnlyThreads fuel lookup feedItems userDid = Some out ->
  filter_decides lookup userDid feedItems out.
Proof.
  intros Hf. split; [|split].
  - intros it Hr Hin. destruct (filter_kept _ _ _ _ _ _ Hf Hin) as (_ & H & _). congruence.
  - intros it Hr Hc. split.
    + intros Hin. destruct (filter_kept _ _ _ _ _ _ Hf Hin) as (_ & _ & _ & _ & [H|H]);
        [contradiction|]. exact (walk_foreign_not_true _ _ _ Hc _ _ H).
    + destruct (walk_foreign_false _ _ _ Hc) as [f Hw]. exists f. apply Hw.
  - intros it Hin H1 H2 H3 H4 Hc. split.
    + eapply filter_includes; eauto.
      apply (walk_self_chain_not_false _ _ _ Hc). set_solver.
    + destruct (walk_self_chain_true _ _ _ Hc) as [f Hw]. exists f. apply Hw. set_solver.
Qed.

Lemma filter_exclusion_inclusion_witness :
  filterPostsForSelfOnlyThreads 4 lookup_mixed mixed_feed me =
    Some [plain (reply_post None); plain root_post] /\
  filter_decides lookup_mixed me mixed_feed [plain (reply_post None); plain root_post].
Proof.
  split; [vm_compute; reflexivity|].
  apply (filter_exclusion_inclusion 4 lookup_mixed mixed_feed _ me).
  vm_compute. reflexivity.
Defined.

(** [C1] counterexample: two replies of [me] to [me]'s own root, neither
    carrying a repost marker and both with a self-only chain, are dropped:
    one has the record [$type] [app.bsky.feed.repost], the other has no
    record text. *)
Lemma filter_drops_repost_typed_self_reply :
  is_repost_reason (plain (reply_post (Some RECORD_REPOST))) = false /\
  self_chain lookup_root me (reply_post (Some RECORD_REPOST)) /\
  is_repost_reason (plain textless_reply) = false /\
  self_chain lookup_root me textless_reply /\
  filterPostsForSelfOnlyThreads 5 lookup_root
    [plain (reply_post (Some RECORD_REPOST)); plain textless_reply] me = Some [].
Proof.
  split; [reflexivity|]. split.
  { eapply SC_up; [reflexivity | reflexivity | reflexivity |].
    apply SC_root; reflexivity. }
  split; [reflexivity|]. split.
  { eapply SC_up; [reflexivity | reflexivity | reflexivity |].
    apply SC_root; reflexivity. }
  vm_compute. reflexivity.
Qed.

(** [C2] (code bug) The walk fails closed on a non-ok answer, but when the
    parent lookup answers with a thread that has no [post] the loop just
    stops, the size check sees only the target account, and the reply is
    kept. *)
Theorem filter_keeps_reply_with_postless_parent :
  filterPostsForSelfOnlyThreads 5 lookup_postless [plain (reply_post None)] me =
    Some [plain (reply_post None)] /\
  filterPostsForSelfOnlyThreads 5 (fun _ => RespNotOk 500) [plain (reply_post None)] me =
    Some [] /\
  filterPostsForSelfOnlyThreads 5 (fun _ => RespError) [plain (reply_post None)] me =
    Some [].
Proof. vm_compute. repeat split. Qed.

(** ** No depth bound on the walk *)

Lemma chain_uri_length (n : nat) : String.length (chain_uri n) = S n.
Proof. induction n as [|n IH]; simpl; [reflexivity | rewrite IH; reflexivity]. Qed.

Lemma walk_chain_up (fuel : nat) (lookup : Lookup) (u : string) (p q : BlueskyPost)
    (r : ReplyRef) (checked : gset string) :
  did (author p) = u -> reply (record p) = Some r ->
  lookup (parent_uri r) = RespThread (Some q) ->
  walk_chain (S fuel) lookup u p checked = walk_chain fuel lookup u q ({[u]} ∪ checked).
Proof. intros Ha Hr Hl. simpl. rewrite Ha, String.eqb_refl, Hr, Hl. reflexivity. Qed.

Lemma walk_chain_post (n : nat) (checked : gset string) :
  checked ⊆ {[me]} -> walk_chain (S n) chain_lookup me (chain_post n) checked = Some true.
Proof.
  revert checked. induction n as [|n IH]; intros checked Hsub.
  - simpl. by rewrite self_only_user.
  - rewrite (walk_chain_up _ _ _ _ (chain_post n) (mkReplyRef (chain_uri n) "r"));
      [apply IH; set_solver | reflexivity | reflexivity |].
    unfold chain_lookup. simpl parent_uri. rewrite chain_uri_length. reflexivity.
Qed.

Lemma walk_cyclic (fuel : nat) (checked : gset string) :
  walk_chain fuel cyclic_lookup me cyclic_post checked = None.
Proof.
  revert checked. induction fuel as [|fuel IH]; intros checked; [reflexivity|].
  simpl. apply IH.
Qed.

(** [C9] counterexample: the walk has no depth bound. A self-only chain
    61 posts deep is accepted, and on a post of the target account that is
    its own parent the walk never finishes. *)
Lemma walk_has_no_depth_bound :
  isReplyInSelfOnlyThread 61 chain_lookup (chain_post 60) me = Some true /\
  forall fuel, isReplyInSelfOnlyThread fuel cyclic_lookup cyclic_post me = None.
Proof.
  split; [apply walk_chain_post; set_solver|].
  intros fuel. apply walk_cyclic.
Qed.

Lemma walk_ends_sound (lookup : Lookup) (u : string) (fuel : nat) :
  forall p (checked : gset string), walk_chain fuel lookup u p checked <> None -> walk_ends lookup u p.
Proof.
  induction fuel as [|fuel IH]; intros p checked Hw; simpl in Hw; [contradiction|].
  destruct (String.eqb_spec (did (author p)) u) as [Ha|Ha]; [|apply WE_foreign; exact Ha].
  simpl in Hw. destruct (reply (record p)) as [r|] eqn:Hr; [|apply WE_root; assumption].
  destruct (lookup (parent_uri r)) as [status| |[q|]] eqn:Hl.
  - eapply WE_not_ok; eassumption.
  - eapply WE_error; eassumption.
  - apply (WE_up lookup u p q); [split; [exact Ha|exists r; split; assumption]|].
    exact (IH q _ Hw).
  - eapply WE_postless; eassumption.
Qed.

Lemma walk_ends_complete (lookup : Lookup) (u : string) (p : BlueskyPost) :
  walk_ends lookup u p ->
  forall (checked : gset string), exists fuel, walk_chain fuel lookup u p checked <> None.
Proof.
  induction 1 as [p Ha|p Ha Hr|p r status Ha Hr Hl|p r Ha Hr Hl|p r Ha Hr Hl
                 |p q [Ha [r [Hr Hl]]] _ IH]; intros checked.
  - exists 1%nat. simpl. destruct (String.eqb_spec (did (author p)) u); [contradiction|discriminate].
  - exists 1%nat. simpl. rewrite Ha, String.eqb_refl, Hr. discriminate.
  - exists 1%nat. simpl. rewrite Ha, String.eqb_refl, Hr, Hl. discriminate.
  - exists 1%nat. simpl. rewrite Ha, String.eqb_refl, Hr, Hl. discriminate.
  - exists 1%nat. simpl. rewrite Ha, String.eqb_refl, Hr, Hl. discriminate.
  - destruct (IH ({[u]} ∪ checked)) as [fuel Hf]. exists (S fuel).
    rewrite (walk_chain_up fuel lookup u p q r checked Ha Hr Hl). exact Hf.
Qed.

Lemma trans_first {A : Type} (R : relation A) (x z : A) :
  clos_trans A R x z -> exists y, R x y /\ clos_refl_trans A R y z.
Proof.
  intros H. apply clos_trans_t1n in H. destruct H as [y Hxy | y z Hxy Hyz].
  - exists y. split; [exact Hxy | apply rt_refl].
  - exists y. split; [exact Hxy|]. apply clos_t1n_trans in Hyz.
    clear Hxy. induction Hyz as [a b Hab | a b c _ IH1 _ IH2];
      [apply rt_step; exact Hab | eapply rt_trans; eassumption].
Qed.

Lemma walk_on_cycle (lookup : Lookup) (u : string) (fuel : nat) :
  forall p (checked : gset string), clos_trans _ (parent_step lookup u) p p ->
  walk_chain fuel lookup u p checked = None.
Proof.
  induction fuel as [|fuel IH]; intros p checked Hc; [reflexivity|].
  destruct (trans_first _ p p Hc) as [q [[Ha [r [Hr Hl]]] Hqp]].
  rewrite (walk_chain_up fuel lookup u p q r checked Ha Hr Hl).
  apply IH. apply (clos_rt_t _ _ q p q Hqp). apply t_step. split; [exact Ha|exists r; auto].
Qed.

(** [C9] (amended) The walk applies no depth bound. It ends exactly when,
    after finitely many posts of the target account whose parent lookup
    answered a post, it meets a post by another author, a root, a failed
    lookup or a parent view without a post. Every chain of the target
    account up to its root is accepted, whatever its depth (the chains
    [chain_post n] of depth [n] need [n + 1] turns), and on self-authored
    parent data that forms a cycle the walk never ends. *)
Theorem walk_unbounded :
  (forall lookup p u,
     (exists fuel, isReplyInSelfOnlyThread fuel lookup p u <> None) <-> walk_ends lookup u p) /\
  (forall lookup p u, self_chain lookup u p ->
     exists fuel, isReplyInSelfOnlyThread fuel lookup p u = Some true) /\
  (forall n, isReplyInSelfOnlyThread (S n) chain_lookup (chain_post n) me = Some true) /\
  (forall lookup p u, clos_trans _ (parent_step lookup u) p p ->
     forall fuel, isReplyInSelfOnlyThread fuel lookup p u = None).
Proof.
  split; [|split; [|split]].
  - intros lookup p u. split.
    + intros [fuel Hf]. exact (walk_ends_sound lookup u fuel p ∅ Hf).
    + intros He. exact (walk_ends_complete lookup u p He ∅).
  - intros lookup p u Hs. destruct (walk_self_chain_true lookup u p Hs) as [fuel Hf].
    exists fuel. apply Hf. set_solver.
  - intros n. apply walk_chain_post. set_solver.
  - intros lookup p u Hc fuel. exact (walk_on_cycle lookup u fuel p ∅ Hc).
Qed.

Lemma walk_unbounded_witness :
  (exists fuel, isReplyInSelfOnlyThread fuel lookup_postless (chain_post 1) me <> None) /\
  (exists fuel, isReplyInSelfOnlyThread fuel chain_lookup (chain_post 2) me = Some true) /\
  isReplyInSelfOnlyThread 3 chain_lookup (chain_post 2) me = Some true /\
  (forall fuel, isReplyInSelfOnlyThread fuel cyclic_lookup cyclic_post me = None).
Proof.
  destruct walk_unbounded as (H1 & H2 & H3 & H4).
  split; [|split; [|split]].
  - apply (proj2 (H1 lookup_postless (chain_post 1) me)).
    eapply WE_postless; reflexivity.
  - apply H2.
    apply (SC_up _ _ _ (mkReplyRef (chain_uri 1) "r") (chain_post 1)); [reflexivity..|].
    apply (SC_up _ _ _ (mkReplyRef (chain_uri 0) "r") (chain_post 0)); [reflexivity..|].
    apply SC_root; reflexivity.
  - apply H3.
  - apply H4. apply t_step. split; [reflexivity|]. eexists. split; reflexivity.
Defined.

(** ** The cache *)

(** [C5] For a stored entry: [get] returns its value exactly when
    [now <= storedAt + ttl], leaving the store as it is; otherwise it
    returns nothing and deletes the entry, and every later [get] of the
    key returns nothing and changes nothing. *)
Theorem get_ttl (now : Z) (key : string) (st : Storage) (data : CacheData)
    (timestamp expiry : Z) :
  st !! Cache.getKey key = Some (StoredItem data timestamp expiry) ->
  (fst (Cache.get now key st) = Some data <-> now <= timestamp + expiry) /\
  (now <= timestamp + expiry -> Cache.get now key st = (Some data, st)) /\
  (timestamp + expiry < now ->
     Cache.get now key st = (None, Cache.delete key st) /\
     forall now', Cache.get now' key (Cache.delete key st) = (None, Cache.delete key st)).
Proof.
  intros Hst. unfold Cache.get, Cache.isExpired. rewrite Hst.
  destruct (Z.ltb_spec (timestamp + expiry) now) as [Hlt|Hle].
  - split; [simpl; split; [discriminate | lia]|]. split; [lia|].
    intros _. split; [reflexivity|]. intros now'.
    unfold Cache.delete. rewrite lookup_delete_eq. reflexivity.
  - split; [simpl; tauto|]. split; [reflexivity | lia].
Qed.

Lemma get_ttl_witness :
  (fst (Cache.get 5 "k" ttl_store) = Some (PostsCache empty_posts) <-> 5 <= 0 + 3) /\
  (5 <= 0 + 3 -> Cache.get 5 "k" ttl_store = (Some (PostsCache empty_posts), ttl_store)) /\
  (0 + 3 < 5 ->
     Cache.get 5 "k" ttl_store = (None, Cache.delete "k" ttl_store) /\
     forall now', Cache.get now' "k" (Cache.delete "k" ttl_store) =
                  (None, Cache.delete "k" ttl_store)).
Proof. apply (get_ttl 5 "k" ttl_store). reflexivity. Defined.

(** [C8] counterexample: an unparsable entry is not evicted by [get]. *)
Lemma get_malformed_kept :
  Cache.get 7 "k" malformed_store = (None, malformed_store) /\
  malformed_store !! Cache.getKey "k" = Some StoredMalformed.
Proof. split; reflexivity. Qed.

(** [C8] (amended) [get] of a key whose stored payload is unparsable
    returns nothing and leaves the store unchanged (the entry stays), just
    as [get] of a missing key returns nothing and leaves the store
    unchanged. *)
Theorem get_malformed (now : Z) (key : string) (st : Storage) :
  st !! Cache.getKey key = Some StoredMalformed ->
  Cache.get now key st = (None, st) /\
  snd (Cache.get now key st) !! Cache.getKey key = Some StoredMalformed /\
  (forall st' : Storage, st' !! Cache.getKey key = None -> Cache.get now key st' = (None, st')).
Proof.
  intros Hst. unfold Cache.get. rewrite Hst. split; [reflexivity|]. split; [exact Hst|].
  intros st' Hn. rewrite Hn. reflexivity.
Qed.

Lemma get_malformed_witness :
  Cache.get 7 "k" malformed_store = (None, malformed_store) /\
  snd (Cache.get 7 "k" malformed_store) !! Cache.getKey "k" = Some StoredMalformed /\
  (forall st' : Storage, st' !! Cache.getKey "k" = None -> Cache.get 7 "k" st' = (None, st')).
Proof. apply (get_malformed 7 "k" malformed_store). reflexivity. Defined.

Lemma getPosts_some (now : Z) (h : string) (st st' : Storage) (d : PostsCacheData) :
  Cache.getPosts now h st = (Some d, st') -> st' = st.
Proof.
  unfold Cache.getPosts, Cache.get.
  destruct (st !! Cache.getKey (Cache.posts_key h)) as [[data ts ex| |]|]; try (intros [=]; fail).
  destruct (Cache.isExpired now ts ex); [intros [=]|].
  destruct data; intros [=]; done.
Qed.

Lemma getPosts_live (now : Z) (h : string) (st : Storage) (d : PostsCacheData) (ts ex : Z) :
  st !! Cache.getKey (Cache.posts_key h) = Some (StoredItem (PostsCache d) ts ex) ->
  now <= ts + ex -> Cache.getPosts now h st = (Some d, st).
Proof.
  intros Hst Hle. unfold Cache.getPosts, Cache.get, Cache.isExpired. rewrite Hst.
  destruct (Z.ltb_spec (ts + ex) now); [lia | reflexivity].
Qed.

Lemma unique_filter_gset (ps news : list BlueskyThreadItem) :
  List.filter (fun t => negb (bool_decide
      (thread_uri t ∈ (list_to_set (map thread_uri ps) : gset string)))) news =
  List.filter (fun t => negb (bool_decide (thread_uri t ∈ map thread_uri ps))) news.
Proof.
  apply filter_ext. intros t. f_equal. apply bool_decide_ext. apply elem_of_list_to_set.
Qed.

(** [C6] [appendPosts] on a live entry holding [a; b] (URIs A, B) with
    the incoming page [b'; c] (URIs B, C) stores exactly [a; b; c]; with an
    incoming page whose URIs are all cached it writes nothing: the store,
    and so the entry's timestamp and ttl, are unchanged. *)
Theorem appendPosts_dedup (now : Z) (h : string) (st : Storage) (d : PostsCacheData)
    (ts ex : Z) (a b b' c : BlueskyThreadItem) (cur : option string) :
  st !! Cache.getKey (Cache.posts_key h) = Some (StoredItem (PostsCache d) ts ex) ->
  now <= ts + ex ->
  cached_posts d = [a; b] ->
  thread_uri b' = thread_uri b -> thread_uri c <> thread_uri a -> thread_uri c <> thread_uri b ->
  Cache.appendPosts now h [b'; c] cur st =
    Cache.set now (Cache.posts_key h) (PostsCache (mkPostsCacheData [a; b; c] cur h))
      (Some Cache.POSTS_TTL) st /\
  stored_posts h (Cache.appendPosts now h [b'; c] cur st) = Some [a; b; c] /\
  (forall newPosts newCursor,
     Forall (fun t => thread_uri t ∈ map thread_uri (cached_posts d)) newPosts ->
     Cache.appendPosts now h newPosts newCursor st = st).
Proof.
  intros Hst Hle Hd Hb Hca Hcb.
  assert (Happ : Cache.appendPosts now h [b'; c] cur st =
    Cache.set now (Cache.posts_key h) (PostsCache (mkPostsCacheData [a; b; c] cur h))
      (Some Cache.POSTS_TTL) st).
  { unfold Cache.appendPosts. rewrite (getPosts_live now h st d ts ex Hst Hle).
    rewrite unique_filter_gset, Hd. simpl.
    rewrite (bool_decide_eq_true_2 (thread_uri b' ∈ [thread_uri a; thread_uri b]))
      by (rewrite Hb; set_solver).
    rewrite (bool_decide_eq_false_2 (thread_uri c ∈ [thread_uri a; thread_uri b]))
      by (rewrite !elem_of_cons, elem_of_nil; intuition).
    reflexivity. }
  split; [exact Happ|]. split.
  - rewrite Happ. unfold stored_posts, Cache.set. rewrite lookup_insert_eq. reflexivity.
  - intros newPosts newCursor Hall. unfold Cache.appendPosts.
    rewrite (getPosts_live now h st d ts ex Hst Hle), unique_filter_gset.
    replace (List.filter _ newPosts) with (@nil BlueskyThreadItem); [reflexivity|].
    induction Hall as [|t ts' Ht _ IH]; [reflexivity|]. simpl.
    rewrite bool_decide_eq_true_2 by exact Ht. exact IH.
Qed.

Lemma appendPosts_dedup_witness :
  let st := posts_store [thread_of post_a; thread_of post_b] None in
  (Cache.appendPosts 1 "h" [thread_of post_b; thread_of post_c] (Some "n") st =
     Cache.set 1 (Cache.posts_key "h")
       (PostsCache (mkPostsCacheData [thread_of post_a; thread_of post_b; thread_of post_c]
                      (Some "n") "h")) (Some Cache.POSTS_TTL) st /\
   stored_posts "h" (Cache.appendPosts 1 "h" [thread_of post_b; thread_of post_c] (Some "n") st) =
     Some [thread_of post_a; thread_of post_b; thread_of post_c] /\
   (forall newPosts newCursor,
      Forall (fun t => thread_uri t ∈ map thread_uri [thread_of post_a; thread_of post_b]) newPosts ->
      Cache.appendPosts 1 "h" newPosts newCursor st = st)).
Proof.
  intros st.
  apply (appendPosts_dedup 1 "h" st
           (mkPostsCacheData [thread_of post_a; thread_of post_b] None "h") 0 Cache.POSTS_TTL);
    try reflexivity; try discriminate.
Defined.

(** [C7] counterexample: in the session of [session] the cached list ends
    up holding post [b] twice (the pagination write of [setPosts] appends
    without checking URIs), and an initial-load write replaces a cached
    list instead of extending it. *)
Lemma posts_cache_not_append_only :
  stored_posts "h" (posts_store [thread_of post_a] (Some "c1")) = Some [thread_of post_a] /\
  stored_posts "h" session = Some [thread_of post_a; thread_of post_b; thread_of post_b] /\
  ~ NoDup (map thread_uri [thread_of post_a; thread_of post_b; thread_of post_b]) /\
  stored_posts "h" (Cache.setPosts 3 "h" [thread_of post_b] None true
                      (posts_store [thread_of post_a] (Some "c1"))) = Some [thread_of post_b] /\
  ~ (exists ext, [thread_of post_b] = [thread_of post_a] ++ ext).
Proof.
  split; [reflexivity|]. split; [vm_compute; reflexivity|]. split.
  { simpl. intros Hnd. inversion Hnd as [|? ? _ Hnd']. inversion Hnd' as [|? ? Hn _].
    apply Hn. set_solver. }
  split; [vm_compute; reflexivity|].
  intros [ext Hext]. discriminate Hext.
Qed.

(** [C7] (amended) How each posts-cache write changes the cached list:
    an initial-load [setPosts] replaces it with the new page; a later-page
    [setPosts] stores the live cached list followed by the new page (the
    new page alone when no live entry is cached); [appendPosts] on a live
    entry either finds no entry with a new URI and writes nothing, or
    stores the cached list followed by the incoming entries whose URI is
    not cached; without a live entry it writes nothing. *)
Theorem posts_cache_merge (now : Z) (h : string) (posts : list BlueskyThreadItem)
    (cur : option string) (st : Storage) :
  stored_posts h (Cache.setPosts now h posts cur true st) = Some posts /\
  stored_posts h (Cache.setPosts now h posts cur false st) =
    Some (match fst (Cache.getPosts now h st) with
          | Some d => cached_posts d ++ posts
          | None => posts
          end) /\
  (forall d, fst (Cache.getPosts now h st) = Some d ->
     let unique := List.filter (fun t => negb (bool_decide
                     (thread_uri t ∈ map thread_uri (cached_posts d)))) posts in
     (unique = [] /\ Cache.appendPosts now h posts cur st = st) \/
     (unique <> [] /\
      stored_posts h (Cache.appendPosts now h posts cur st) = Some (cached_posts d ++ unique))) /\
  (fst (Cache.getPosts now h st) = None ->
     Cache.appendPosts now h posts cur st = snd (Cache.getPosts now h st)).
Proof.
  assert (Hset : forall t ttl (st0 : Storage) ps cr,
    stored_posts h (Cache.set t (Cache.posts_key h)
                      (PostsCache (mkPostsCacheData ps cr h)) ttl st0) = Some ps).
  { intros. unfold stored_posts, Cache.set. rewrite lookup_insert_eq. reflexivity. }
  split; [apply Hset|]. split.
  { unfold Cache.setPosts. destruct (Cache.getPosts now h st) as [[d|] st1]; simpl;
      apply Hset. }
  split.
  - intros d Hd unique. unfold Cache.appendPosts.
    destruct (Cache.getPosts now h st) as [od st1] eqn:Hg. simpl in Hd. subst od.
    apply getPosts_some in Hg. subst st1.
    rewrite unique_filter_gset. fold unique.
    destruct unique as [|t rest] eqn:Hu.
    + left. split; reflexivity.
    + right. split; [discriminate|]. simpl. apply Hset.
  - intros Hn. unfold Cache.appendPosts.
    destruct (Cache.getPosts now h st) as [od st1]. simpl in Hn. subst od. reflexivity.
Qed.

(** ** The stable sort *)

Section ArraySort.
Context {A : Type} (cmp : A -> A -> Z).

Lemma insert_sorted_perm (x : A) (l : list A) : Permutation (insert_sorted cmp x l) (x :: l).
  Proof.
    induction l as [|y ys IH]; simpl; [reflexivity|].
    destruct (cmp x y <=? 0); [reflexivity|].
    rewrite IH. apply perm_swap.
  Qed.

Lemma array_sort_perm (l : list A) : Permutation (array_sort cmp l) l.
  Proof.
    induction l as [|x xs IH]; simpl; [reflexivity|].
    rewrite insert_sorted_perm, IH. reflexivity.
  Qed.

Lemma array_sort_In (l : list A) (x : A) : In x (array_sort cmp l) <-> In x l.
  Proof. split; apply Permutation_in; [|symmetry]; apply array_sort_perm. Qed.

Lemma insert_sorted_id (x : A) (l : list A) :
    HdRel (fun a b => cmp a b <= 0) x l -> insert_sorted cmp x l = x :: l.
  Proof.
    destruct l as [|y ys]; intros H; simpl; [reflexivity|].
    apply HdRel_inv in H. destruct (Z.leb_spec (cmp x y) 0); [reflexivity | lia].
  Qed.

Lemma array_sort_id (l : list A) : Sorted (fun a b => cmp a b <= 0) l -> array_sort cmp l = l.
  Proof.
    induction 1 as [|x xs Hs IH Hd]; simpl; [reflexivity|].
    rewrite IH. apply insert_sorted_id, Hd.
  Qed.

Section Sortedness.
Hypothesis cmp_flip : forall a b, 0 < cmp a b -> cmp b a <= 0.

Lemma insert_sorted_sorted (x : A) (l : list A) :
      Sorted (fun a b => cmp a b <= 0) l ->
      Sorted (fun a b => cmp a b <= 0) (insert_sorted cmp x l).
    Proof.
      induction 1 as [|y ys Hs IH Hd]; simpl; [repeat constructor|].
      destruct (Z.leb_spec (cmp x y) 0) as [Hle|Hgt].
      - constructor; [constructor; assumption | constructor; exact Hle].
      - constructor; [exact IH|].
        destruct ys as [|z zs]; simpl; [constructor; apply cmp_flip; lia|].
        destruct (cmp x z <=? 0); constructor; [apply cmp_flip; lia | apply HdRel_inv in Hd; exact Hd].
    Qed.

Lemma array_sort_sorted (l : list A) : Sorted (fun a b => cmp a b <= 0) (array_sort cmp l).
    Proof. induction l as [|x xs IH]; simpl; [constructor | apply insert_sorted_sorted, IH]. Qed.

Lemma array_sort_idem (l : list A) : array_sort cmp (array_sort cmp l) = array_sort cmp l.
    Proof. apply array_sort_id, array_sort_sorted. Qed.
End Sortedness.

Section Stability.
Variable key : A -> Z.
Hypothesis cmp_same_key : forall a b, key a = key b -> cmp a b <= 0.

Lemma insert_sorted_filter (t : Z) (x : A) (l : list A) :
      List.filter (fun y => key y =? t) (insert_sorted cmp x l) =
      List.filter (fun y => key y =? t) (x :: l).
    Proof.
      induction l as [|y ys IH]; simpl; [reflexivity|].
      destruct (Z.leb_spec (cmp x y) 0) as [Hle|Hgt]; [reflexivity|].
      assert (Hne : key x <> key y) by (intros He; specialize (cmp_same_key _ _ He); lia).
      simpl. rewrite IH. simpl.
      destruct (Z.eqb_spec (key x) t), (Z.eqb_spec (key y) t); congruence.
    Qed.

    (** Entries with equal keys keep their relative order. *)
Lemma array_sort_stable (t : Z) (l : list A) :
      List.filter (fun y => key y =? t) (array_sort cmp l) = List.filter (fun y => key y =? t) l.
    Proof.
      induction l as [|x xs IH]; simpl; [reflexivity|].
      rewrite insert_sorted_filter. simpl. rewrite IH. reflexivity.
    Qed.
End Stability.
End ArraySort.

Lemma Sorted_weaken {A} (R R' : A -> A -> Prop) (l : list A) :
  (forall a b, R a b -> R' a b) -> Sorted R l -> Sorted R' l.
Proof.
  intros HR. induction 1 as [|x xs Hs IH Hd]; constructor; [exact IH|].
  destruct Hd; constructor. apply HR. assumption.
Qed.

(** ** The two passes of [groupPostsIntoThreads] *)

Lemma index_posts_keep (i : nat) (ps : list BlueskyFeedItem) (m : gmap string nat) (k : string) :
  is_Some (m !! k) -> is_Some (index_posts i ps m !! k).
Proof.
  revert i m. induction ps as [|x xs IH]; intros i m H; simpl; [exact H|].
  apply IH. destruct (decide (uri (post x) = k)) as [<-|Hne].
  - rewrite lookup_insert_eq. eauto.
  - rewrite lookup_insert_ne by done. exact H.
Qed.

Lemma index_posts_in (i : nat) (ps : list BlueskyFeedItem) (m : gmap string nat) (it : BlueskyFeedItem) :
  In it ps -> is_Some (index_posts i ps m !! uri (post it)).
Proof.
  revert i m. induction ps as [|x xs IH]; intros i m Hin; [destruct Hin|].
  destruct Hin as [->|Hin]; simpl.
  - apply index_posts_keep. rewrite lookup_insert_eq. eauto.
  - apply IH, Hin.
Qed.

(** A node id in the map is the position of an entry with that URI. *)
Lemma index_posts_sound (i : nat) (ps : list BlueskyFeedItem) (m : gmap string nat)
    (k : string) (n : nat) :
  index_posts i ps m !! k = Some n ->
  m !! k = Some n \/ (i <= n)%nat /\ exists it, ps !! (n - i)%nat = Some it /\ uri (post it) = k.
Proof.
  revert i m. induction ps as [|x xs IH]; intros i m H; simpl in H; [left; exact H|].
  destruct (IH _ _ H) as [Hm | [Hle [it [Hit Hu]]]].
  - destruct (decide (uri (post x) = k)) as [<-|Hne].
    + rewrite lookup_insert_eq in Hm. injection Hm as <-. right.
      split; [lia|]. exists x. rewrite Nat.sub_diag. split; reflexivity.
    + rewrite lookup_insert_ne in Hm by done. left. exact Hm.
  - right. split; [lia|]. exists it. replace (n - i)%nat with (S (n - S i)) by lia.
    split; [exact Hit | exact Hu].
Qed.

Lemma node_of_lookup (ps : list BlueskyFeedItem) (it : BlueskyFeedItem) :
  In it ps ->
  index_posts 0 ps ∅ !! uri (post it) = Some (node_of (index_posts 0 ps ∅) it).
Proof.
  intros Hin. destruct (index_posts_in 0 ps ∅ it Hin) as [n Hn].
  unfold node_of. rewrite Hn. reflexivity.
Qed.

Lemma build_fold (pm : gmap string nat) (ps : list BlueskyFeedItem) (ar : Arena) (rs : list nat) :
  (forall it, In it ps -> is_Some (pm !! uri (post it))) ->
  snd (fold_left (build_step pm) ps (ar, rs)) =
    rs ++ map (node_of pm) (List.filter (unattached pm) ps) /\
  forall pid, arena_children (fst (fold_left (build_step pm) ps (ar, rs))) pid =
    arena_children ar pid ++ map (node_of pm) (List.filter (attached_to pm pid) ps).
Proof.
  revert ar rs. induction ps as [|x xs IH]; intros ar rs Hdom; simpl.
  { split; [symmetry; apply app_nil_r | intros; symmetry; apply app_nil_r]. }
  assert (Hdom' : forall it, In it xs -> is_Some (pm !! uri (post it)))
    by (intros; apply Hdom; right; done).
  destruct (Hdom x (or_introl eq_refl)) as [nid Hnid].
  assert (Hn : node_of pm x = nid) by (unfold node_of; rewrite Hnid; reflexivity).
  unfold build_step at 2. rewrite Hnid.
  destruct (reply (record (post x))) as [r|] eqn:Hr.
  - destruct (pm !! parent_uri r) as [pid|] eqn:Hp.
    + assert (Hu : unattached pm x = false)
        by (unfold unattached; rewrite Hr, Hp; reflexivity).
      assert (Ha : forall q, attached_to pm q x = Nat.eqb q pid).
      { intros q. unfold attached_to. rewrite Hr, Hp.
        destruct (Nat.eqb_spec q pid) as [->|Hne];
          [apply bool_decide_eq_true_2; reflexivity | apply bool_decide_eq_false_2; congruence]. }
      destruct (IH (push_child ar pid nid) rs Hdom') as [H1 H2].
      rewrite Hu. split; [exact H1|].
      intros q. rewrite H2, Ha. unfold push_child, set_children, upd. simpl.
      destruct (Nat.eqb_spec q pid) as [->|Hne]; [|reflexivity].
      simpl. rewrite Hn, <- app_assoc. reflexivity.
    + assert (Hu : unattached pm x = true)
        by (unfold unattached; rewrite Hr, Hp; reflexivity).
      assert (Ha : forall q, attached_to pm q x = false).
      { intros q. unfold attached_to. rewrite Hr, Hp. apply bool_decide_eq_false_2. congruence. }
      destruct (IH (set_root ar nid) (rs ++ [nid]) Hdom') as [H1 H2].
      rewrite Hu. split.
      * rewrite H1. simpl. rewrite Hn, <- app_assoc. reflexivity.
      * intros q. rewrite H2, Ha. reflexivity.
  - assert (Hu : unattached pm x = true) by (unfold unattached; rewrite Hr; reflexivity).
    assert (Ha : forall q, attached_to pm q x = false)
      by (intros q; unfold attached_to; rewrite Hr; reflexivity).
    destruct (IH (set_root ar nid) (rs ++ [nid]) Hdom') as [H1 H2].
    rewrite Hu. split.
    + rewrite H1. simpl. rewrite Hn, <- app_assoc. reflexivity.
    + intros q. rewrite H2, Ha. reflexivity.
Qed.

Lemma build_pass_spec (ps : list BlueskyFeedItem) :
  let pm := index_posts 0 ps ∅ in
  snd (build_pass pm ps) = map (node_of pm) (List.filter (unattached pm) ps) /\
  forall pid, arena_children (fst (build_pass pm ps)) pid =
    map (node_of pm) (List.filter (attached_to pm pid) ps).
Proof.
  intros pm. unfold build_pass.
  destruct (build_fold pm ps empty_arena [] (fun it Hin => index_posts_in 0 ps ∅ it Hin)) as [H1 H2].
  split; [exact H1 | intros pid; rewrite H2; reflexivity].
Qed.

(** ** [sortThreadChildren] *)

Lemma oldest_first_flip (posts : list BlueskyFeedItem) (a b : nat) :
  0 < oldest_first posts a b -> oldest_first posts b a <= 0.
Proof. unfold oldest_first. lia. Qed.

Lemma newest_first_flip (posts : list BlueskyFeedItem) (a b : nat) :
  0 < newest_first posts a b -> newest_first posts b a <= 0.
Proof. unfold newest_first. lia. Qed.

Section SortChildren.
Variable posts : list BlueskyFeedItem.
Variable pre : nat -> list nat.

Lemma forEach_sort (fuel : nat)
      (IHf : forall n ar ar', children_inv posts pre ar ->
         sortThreadChildren posts fuel n ar = Some ar' ->
         children_inv posts pre ar' /\
         (forall m, children_sorted_at posts pre ar m -> children_sorted_at posts pre ar' m) /\
         (forall m, reach pre n m -> children_sorted_at posts pre ar' m))
      (cs : list nat) :
    forall s s', children_inv posts pre s ->
    forEach_opt (sortThreadChildren posts fuel) cs s = Some s' ->
    children_inv posts pre s' /\
    (forall m, children_sorted_at posts pre s m -> children_sorted_at posts pre s' m) /\
    (forall c m, In c cs -> reach pre c m -> children_sorted_at posts pre s' m).
  Proof.
    induction cs as [|c cs IH]; intros s s' Hs Hf; simpl in Hf.
    - injection Hf as <-. split; [exact Hs|]. split; [auto | intros ? ? []].
    - destruct (sortThreadChildren posts fuel c s) as [s1|] eqn:E; [|discriminate].
      destruct (IHf c s s1 Hs E) as (Hi1 & Hm1 & Hr1).
      destruct (IH s1 s' Hi1 Hf) as (Hi2 & Hm2 & Hr2).
      split; [exact Hi2|]. split; [auto|].
      intros c' m [<-|Hin] Hr; [apply Hm2, Hr1, Hr | apply (Hr2 c'); assumption].
  Qed.

Lemma sort_children_spec (fuel : nat) :
    forall n ar ar', children_inv posts pre ar ->
    sortThreadChildren posts fuel n ar = Some ar' ->
    children_inv posts pre ar' /\
    (forall m, children_sorted_at posts pre ar m -> children_sorted_at posts pre ar' m) /\
    (forall m, reach pre n m -> children_sorted_at posts pre ar' m).
  Proof.
    induction fuel as [|fuel IH]; intros n ar ar' Hinv Hs; [discriminate|].
    set (ar1 := set_children ar n (array_sort (oldest_first posts) (arena_children ar n))) in Hs.
    change (forEach_opt (sortThreadChildren posts fuel) (arena_children ar1 n) ar1 = Some ar') in Hs.
    assert (Hn1 : arena_children ar1 n = array_sort (oldest_first posts) (pre n)).
    { unfold ar1, set_children, upd. simpl. rewrite Nat.eqb_refl.
      destruct (Hinv n) as [-> | ->]; [reflexivity|].
      apply array_sort_idem, oldest_first_flip. }
    assert (Hi1 : children_inv posts pre ar1).
    { intros m. destruct (Nat.eqb_spec m n) as [->|Hne]; [right; exact Hn1|].
      unfold ar1, set_children, upd. simpl. rewrite (proj2 (Nat.eqb_neq m n) Hne). apply Hinv. }
    assert (Hm1 : forall m, children_sorted_at posts pre ar m -> children_sorted_at posts pre ar1 m).
    { intros m Hm. unfold children_sorted_at in *. destruct (Nat.eqb_spec m n) as [->|Hne].
      - exact Hn1.
      - unfold ar1, set_children, upd. simpl. rewrite (proj2 (Nat.eqb_neq m n) Hne). exact Hm. }
    destruct (forEach_sort fuel IH (arena_children ar1 n) ar1 ar' Hi1 Hs) as (Hi2 & Hm2 & Hr2).
    split; [exact Hi2|]. split; [auto|].
    intros m Hr. inversion Hr as [| ? c ? Hc Hcm]; subst.
    - apply Hm2. exact Hn1.
    - apply (Hr2 c); [|exact Hcm]. rewrite Hn1. apply array_sort_In. exact Hc.
  Qed.

Lemma reach_final (ar : Arena) (n m : nat) :
    children_inv posts pre ar -> reach (arena_children ar) n m -> reach pre n m.
  Proof.
    intros Hinv. induction 1 as [n|n c m Hc _ IH]; [constructor|].
    apply (reach_step _ n c m); [|exact IH].
    destruct (Hinv n) as [Heq|Heq]; rewrite Heq in Hc; [exact Hc|].
    apply array_sort_In in Hc. exact Hc.
  Qed.
End SortChildren.

Lemma group_spec (fuel : nat) (posts : list BlueskyFeedItem) (roots : list nat) (ar : Arena) :
  groupPostsIntoThreads fuel posts = Some (roots, ar) ->
  roots = array_sort (newest_first posts) (snd (build_pass (index_posts 0 posts ∅) posts)) /\
  children_inv posts (arena_children (fst (build_pass (index_posts 0 posts ∅) posts))) ar /\
  (forall r m, In r roots ->
     reach (arena_children (fst (build_pass (index_posts 0 posts ∅) posts))) r m ->
     children_sorted_at posts (arena_children (fst (build_pass (index_posts 0 posts ∅) posts))) ar m).
Proof.
  unfold groupPostsIntoThreads. intros Hg.
  destruct (build_pass (index_posts 0 posts ∅) posts) as [ar0 rs]. simpl.
  destruct (forEach_opt (sortThreadChildren posts fuel) (array_sort (newest_first posts) rs) ar0)
    as [ar'|] eqn:Ef; [|discriminate].
  injection Hg as <- <-.
  assert (H0 : children_inv posts (arena_children ar0) ar0) by (intros m; left; reflexivity).
  destruct (forEach_sort posts (arena_children ar0) fuel
              (sort_children_spec posts (arena_children ar0) fuel) _ ar0 ar' H0 Ef)
    as (Hi & _ & Hr).
  split; [reflexivity|]. split; [exact Hi|]. exact Hr.
Qed.

(** [C3] In the output of the thread builder, an entry whose reply parent
    URI is in this page's index becomes a child of that parent's node (the
    node of an entry with that URI), and every other entry (top-level, or
    a reply whose parent is not in the page) becomes a root; the roots and
    each node's children are exactly these entries' nodes. *)
Theorem group_attach (fuel : nat) (posts : list BlueskyFeedItem) (roots : list nat) (ar : Arena) :
  groupPostsIntoThreads fuel posts = Some (roots, ar) ->
  thread_shape posts roots ar.
Proof.
  intros Hg. destruct (group_spec fuel posts roots ar Hg) as (Hroots & Hinv & _).
  destruct (build_pass_spec posts) as [Hrs Hch].
  set (pm := index_posts 0 posts ∅) in *.
  assert (Hperm_roots : Permutation roots (map (node_of pm) (List.filter (unattached pm) posts))).
  { rewrite Hroots, <- Hrs. apply array_sort_perm. }
  assert (Hperm_ch : forall pid, Permutation (arena_children ar pid)
                       (map (node_of pm) (List.filter (attached_to pm pid) posts))).
  { intros pid. rewrite <- Hch. destruct (Hinv pid) as [-> | ->]; [reflexivity|].
    apply array_sort_perm. }
  unfold thread_shape. fold pm. split; [exact Hperm_roots|]. split; [exact Hperm_ch|].
  intros it Hin.
  assert (Hl : pm !! uri (post it) = Some (node_of pm it)) by (apply node_of_lookup, Hin).
  split; [exact Hl|]. split.
  { destruct (index_posts_sound 0 posts ∅ _ _ Hl) as [He | [_ [it' [Hit Hu]]]];
      [rewrite lookup_empty in He; discriminate|].
    rewrite Nat.sub_0_r in Hit. exists it'. split; assumption. }
  assert (Hroot : unattached pm it = true -> In (node_of pm it) roots).
  { intros Hu. apply (Permutation_in _ (Permutation_sym Hperm_roots)).
    apply in_map, filter_In. split; assumption. }
  destruct (reply (record (post it))) as [r|] eqn:Hr.
  - destruct (pm !! parent_uri r) as [pid|] eqn:Hp.
    + split.
      * apply (Permutation_in _ (Permutation_sym (Hperm_ch pid))).
        apply in_map, filter_In. split; [exact Hin|].
        unfold attached_to. rewrite Hr, Hp. apply bool_decide_eq_true_2. reflexivity.
      * destruct (index_posts_sound 0 posts ∅ _ _ Hp) as [He | [_ [par [Hpar Hu]]]];
          [rewrite lookup_empty in He; discriminate|].
        rewrite Nat.sub_0_r in Hpar. exists par. split; assumption.
    + apply Hroot. unfold unattached. rewrite Hr, Hp. reflexivity.
  - apply Hroot. unfold unattached. rewrite Hr. reflexivity.
Qed.

Lemma group_attach_witness :
  exists roots ar, groupPostsIntoThreads 5 thread_feed = Some (roots, ar) /\
    thread_shape thread_feed roots ar.
Proof.
  destruct (groupPostsIntoThreads 5 thread_feed) as [[roots ar]|] eqn:E.
  - exists roots, ar. split; [reflexivity|]. exact (group_attach 5 thread_feed roots ar E).
  - vm_compute in E. discriminate E.
Defined.

(** [C4] In the output of the thread builder the roots are sorted by
    index timestamp, newest first; the children of every node of the
    forest are sorted oldest first (they are the sorted version of the
    children the second pass pushed); and at equal timestamps roots, and
    the children of a node, keep the order of their entries in the feed. *)
Theorem group_order (fuel : nat) (posts : list BlueskyFeedItem) (roots : list nat) (ar : Arena) :
  groupPostsIntoThreads fuel posts = Some (roots, ar) ->
  thread_order posts roots ar.
Proof.
  intros Hg. destruct (group_spec fuel posts roots ar Hg) as (Hroots & Hinv & Hsorted).
  destruct (build_pass_spec posts) as [Hrs Hch].
  set (pm := index_posts 0 posts ∅) in *.
  unfold thread_order. fold pm. split; [|split].
  - rewrite Hroots. eapply Sorted_weaken; [|apply array_sort_sorted, newest_first_flip].
    unfold newest_first. intros a b. lia.
  - intros t. rewrite Hroots, <- Hrs.
    apply (array_sort_stable (newest_first posts) (node_ts posts)).
    unfold newest_first. intros a b ->. lia.
  - intros r m Hin Hr.
    pose proof (Hsorted r m Hin (reach_final posts _ ar r m Hinv Hr)) as Hm.
    unfold children_sorted_at in Hm. rewrite Hm. split.
    + eapply Sorted_weaken; [|apply array_sort_sorted, oldest_first_flip].
      unfold oldest_first. intros a b. lia.
    + intros t. rewrite Hch.
      apply (array_sort_stable (oldest_first posts) (node_ts posts)).
      unfold oldest_first. intros a b ->. lia.
Qed.

(** The spec's examples: the roots come out as [R; t8; t5] (node ids
    1, 4, 0; timestamps 10, 8, 5) and R's replies as [C2; C1] (ids 3, 2). *)
Lemma group_order_witness :
  exists roots ar, groupPostsIntoThreads 5 thread_feed = Some (roots, ar) /\
    roots = [1; 4; 0]%nat /\ arena_children ar 1 = [3; 2]%nat /\
    thread_order thread_feed roots ar.
Proof.
  destruct (groupPostsIntoThreads 5 thread_feed) as [[roots ar]|] eqn:E.
  - exists roots, ar. split; [reflexivity|].
    pose proof (group_order 5 thread_feed roots ar E) as Ho.
    vm_compute in E. injection E as <- <-. split; [reflexivity|]. split; [reflexivity|]. exact Ho.
  - vm_compute in E. discriminate E.
Defined.

(** ** More of the cache: [clear], profiles, freshness *)

Lemma prefix_append (s t : string) : String.prefix s (String.append s t) = true.
Proof.
  induction s as [|a s IH]; [destruct t; reflexivity|].
  simpl. destruct (Ascii.ascii_dec a a) as [_|Hne]; [exact IH | contradiction].
Qed.

Lemma posts_profile_keys_differ (h h' : string) :
  Cache.getKey (Cache.posts_key h) <> Cache.getKey (Cache.profile_key h').
Proof.
  intros H. apply (f_equal (String.get 15)) in H. simpl in H. discriminate H.
Qed.

Lemma get_snd_other (now : Z) (key k : string) (st : Storage) :
  k <> Cache.getKey key -> snd (Cache.get now key st) !! k = st !! k.
Proof.
  intros Hne. unfold Cache.get.
  destruct (st !! Cache.getKey key) as [[data ts ex| |]|]; try reflexivity.
  destruct (Cache.isExpired now ts ex); [|reflexivity].
  simpl. unfold Cache.delete. rewrite lookup_delete_ne by congruence. reflexivity.
Qed.

Lemma getPosts_snd_other (now : Z) (h k : string) (st : Storage) :
  k <> Cache.getKey (Cache.posts_key h) -> snd (Cache.getPosts now h st) !! k = st !! k.
Proof.
  intros Hne. rewrite <- (get_snd_other now (Cache.posts_key h) k st Hne).
  unfold Cache.getPosts. destruct (Cache.get now (Cache.posts_key h) st) as [[[d|d]|] st'];
    reflexivity.
Qed.

Lemma getProfile_snd (now : Z) (h : string) (st : Storage) :
  snd (Cache.getProfile now h st) = snd (Cache.get now (Cache.profile_key h) st).
Proof.
  unfold Cache.getProfile. destruct (Cache.get now (Cache.profile_key h) st) as [[[d|d]|] st'];
    reflexivity.
Qed.

Lemma list_filter_none {A} (f : A -> bool) (l : list A) :
  (forall x, In x l -> f x = false) -> List.filter f l = [].
Proof.
  induction l as [|x xs IH]; simpl; intros H; [reflexivity|].
  rewrite (H x (or_introl eq_refl)). apply IH. intros y Hy. apply H. right. exact Hy.
Qed.

Lemma ttl_profile : Cache.ttl_or_default (Some Cache.PROFILE_TTL) = Cache.PROFILE_TTL.
Proof. reflexivity. Qed.

Lemma getProfile_set_live (t now : Z) (h : string) (p : ProfileData) (st : Storage) :
  now <= t + Cache.PROFILE_TTL ->
  Cache.getProfile now h (Cache.setProfile t h p st) = (Some p, Cache.setProfile t h p st).
Proof.
  intros Hle. unfold Cache.getProfile, Cache.get, Cache.setProfile, Cache.set.
  rewrite lookup_insert_eq, ttl_profile. unfold Cache.isExpired.
  destruct (Z.ltb_spec (t + Cache.PROFILE_TTL) now); [lia | reflexivity].
Qed.

Lemma setPosts_entry (t : Z) (h : string) (posts : list BlueskyThreadItem)
    (cur : option string) (init : bool) (st : Storage) :
  exists ps, Cache.setPosts t h posts cur init st !! Cache.getKey (Cache.posts_key h) =
    Some (StoredItem (PostsCache (mkPostsCacheData ps cur h)) t Cache.POSTS_TTL).
Proof.
  unfold Cache.setPosts, Cache.set.
  destruct init; [|destruct (Cache.getPosts t h st) as [[d|] st1]];
    eexists; rewrite lookup_insert_eq; reflexivity.
Qed.

(** [Cache.clear] makes every cache key read as absent (a [get] of any
    key returns nothing and changes nothing), and leaves every
    localStorage key outside the cache's prefix as it was. *)
Theorem clear_spec (st : Storage) :
  (forall now key, Cache.get now key (Cache.clear st) = (None, Cache.clear st)) /\
  (forall k, String.prefix Cache.CACHE_PREFIX k = false -> Cache.clear st !! k = st !! k).
Proof.
  split.
  - intros now key. unfold Cache.get.
    replace (Cache.clear st !! Cache.getKey key) with (@None StoredValue); [reflexivity|].
    symmetry. apply map_lookup_filter_None. right. intros x _. simpl.
    unfold Cache.getKey. rewrite prefix_append. discriminate.
  - intros k Hk. destruct (st !! k) as [v|] eqn:E.
    + apply map_lookup_filter_Some. split; [exact E | exact Hk].
    + apply map_lookup_filter_None. left. exact E.
Qed.

(** A profile written by [setProfile] at time [t] is returned by
    [getProfile] up to [t] plus 30 minutes, with the store unchanged;
    after that [getProfile] returns nothing and the store is the one
    before the write with the key removed. *)
Theorem profile_round_trip (t now : Z) (h : string) (p : ProfileData) (st : Storage) :
  (now <= t + Cache.PROFILE_TTL ->
     Cache.getProfile now h (Cache.setProfile t h p st) = (Some p, Cache.setProfile t h p st)) /\
  (t + Cache.PROFILE_TTL < now ->
     Cache.getProfile now h (Cache.setProfile t h p st) =
       (None, Cache.delete (Cache.profile_key h) st)).
Proof.
  split; [apply getProfile_set_live|].
  intros Hlt. unfold Cache.getProfile, Cache.get, Cache.setProfile, Cache.set.
  rewrite lookup_insert_eq, ttl_profile. unfold Cache.isExpired.
  destruct (Z.ltb_spec (t + Cache.PROFILE_TTL) now); [|lia].
  unfold Cache.delete. rewrite delete_insert_eq. reflexivity.
Qed.

Lemma profile_round_trip_witness :
  (1 <= 0 + Cache.PROFILE_TTL ->
     Cache.getProfile 1 "h" (Cache.setProfile 0 "h" (mkProfileData "d" "h" None) ∅) =
       (Some (mkProfileData "d" "h" None), Cache.setProfile 0 "h" (mkProfileData "d" "h" None) ∅)) /\
  (0 + Cache.PROFILE_TTL < 1 ->
     Cache.getProfile 1 "h" (Cache.setProfile 0 "h" (mkProfileData "d" "h" None) ∅) =
       (None, Cache.delete (Cache.profile_key "h") ∅)).
Proof. exact (profile_round_trip 0 1 "h" (mkProfileData "d" "h" None) ∅). Defined.

(** Profiles and posts live under disjoint keys: [setProfile] leaves the
    posts entry of every handle as it was, and [setPosts] and
    [appendPosts] leave the profile entry of every handle as it was. *)
Theorem cache_namespaces (t : Z) (h h' : string) (p : ProfileData)
    (posts : list BlueskyThreadItem) (cur : option string) (init : bool) (st : Storage) :
  Cache.setProfile t h p st !! Cache.getKey (Cache.posts_key h') =
    st !! Cache.getKey (Cache.posts_key h') /\
  Cache.setPosts t h' posts cur init st !! Cache.getKey (Cache.profile_key h) =
    st !! Cache.getKey (Cache.profile_key h) /\
  Cache.appendPosts t h' posts cur st !! Cache.getKey (Cache.profile_key h) =
    st !! Cache.getKey (Cache.profile_key h).
Proof.
  pose proof (posts_profile_keys_differ h' h) as Hk.
  split; [|split].
  - unfold Cache.setProfile, Cache.set. rewrite lookup_insert_ne by congruence. reflexivity.
  - unfold Cache.setPosts.
    destruct init.
    + unfold Cache.set. rewrite lookup_insert_ne by congruence. reflexivity.
    + pose proof (getPosts_snd_other t h' (Cache.getKey (Cache.profile_key h)) st
                    (not_eq_sym Hk)) as Hs.
      destruct (Cache.getPosts t h' st) as [[d|] st1]; simpl in Hs;
        unfold Cache.set; rewrite lookup_insert_ne by congruence; exact Hs.
  - unfold Cache.appendPosts.
    pose proof (getPosts_snd_other t h' (Cache.getKey (Cache.profile_key h)) st
                  (not_eq_sym Hk)) as Hs.
    destruct (Cache.getPosts t h' st) as [[d|] st1]; simpl in Hs; [|exact Hs].
    destruct (0 <? length _)%nat; [|exact Hs].
    unfold Cache.set. rewrite lookup_insert_ne by congruence. exact Hs.
Qed.

(** After any [setPosts] write at time [t0], [getCacheFreshness] reports
    the age [now - t0] and calls it fresh exactly when it is below two
    minutes, while [getPosts] still serves the entry up to an age of two
    minutes inclusive: at exactly two minutes the entry is reported stale
    and still served. *)
Theorem freshness_vs_getPosts (t0 now : Z) (h : string) (posts : list BlueskyThreadItem)
    (cur : option string) (init : bool) (st : Storage) :
  Cache.getCacheFreshness now h (Cache.setPosts t0 h posts cur init st) =
    Some (now - t0 <? Cache.POSTS_TTL, now - t0) /\
  (fst (Cache.getPosts now h (Cache.setPosts t0 h posts cur init st)) <> None <->
     now - t0 <= Cache.POSTS_TTL).
Proof.
  destruct (setPosts_entry t0 h posts cur init st) as [ps Hps].
  split.
  - unfold Cache.getCacheFreshness. rewrite Hps. reflexivity.
  - unfold Cache.getPosts, Cache.get. rewrite Hps. unfold Cache.isExpired.
    destruct (Z.ltb_spec (t0 + Cache.POSTS_TTL) now); simpl; split; intros; try congruence; lia.
Qed.

(** [fetchUserProfile]: after a cache miss and a successful response read
    at time [t2], every later call up to [t2] plus 30 minutes returns that
    profile from the cache, whatever the network would answer, and
    changes nothing. *)
Theorem fetchUserProfile_cached (t1 t2 t3 t4 : Z) (h : string) (p : ProfileData)
    (net : ProfileResponse) (st : Storage) :
  fst (Cache.getProfile t1 h st) = None ->
  t3 <= t2 + Cache.PROFILE_TTL ->
  fst (fetchUserProfile t1 t2 h (ProfileOk p) st) = Some p /\
  fetchUserProfile t3 t4 h net (snd (fetchUserProfile t1 t2 h (ProfileOk p) st)) =
    (Some p, snd (fetchUserProfile t1 t2 h (ProfileOk p) st)).
Proof.
  intros Hmiss Hle.
  assert (E1 : fetchUserProfile t1 t2 h (ProfileOk p) st =
               (Some p, Cache.setProfile t2 h p (snd (Cache.getProfile t1 h st)))).
  { unfold fetchUserProfile.
    destruct (Cache.getProfile t1 h st) as [o st1]. simpl in Hmiss. subst o. reflexivity. }
  rewrite E1. simpl. split; [reflexivity|]. unfold fetchUserProfile.
  rewrite (getProfile_set_live t2 t3 h p _ Hle). reflexivity.
Qed.

Lemma fetchUserProfile_cached_witness :
  fst (Cache.getProfile 0 "h" ∅) = None /\ 5 <= 1 + Cache.PROFILE_TTL /\
  fst (fetchUserProfile 0 1 "h" (ProfileOk (mkProfileData "d" "h" None)) ∅) =
    Some (mkProfileData "d" "h" None) /\
  fetchUserProfile 5 6 "h" ProfileFailed
    (snd (fetchUserProfile 0 1 "h" (ProfileOk (mkProfileData "d" "h" None)) ∅)) =
  (Some (mkProfileData "d" "h" None),
   snd (fetchUserProfile 0 1 "h" (ProfileOk (mkProfileData "d" "h" None)) ∅)).
Proof.
  split; [reflexivity|]. split; [unfold Cache.PROFILE_TTL; lia|].
  apply (fetchUserProfile_cached 0 1 5 6 "h"); [reflexivity | unfold Cache.PROFILE_TTL; lia].
Defined.

(** [fetchProfileData]: when the response is not a profile (non-ok
    status or a failed request), the call returns exactly what the cache
    lookup returned, with its store: a failure is never cached, so the
    next call asks the network again. *)
Theorem fetchProfileData_failure (t1 t2 : Z) (did : string) (net : ProfileResponse)
    (st : Storage) :
  (forall p, net <> ProfileOk p) ->
  fetchProfileData t1 t2 did net st = Cache.getProfile t1 did st.
Proof.
  intros Hnet. unfold fetchProfileData.
  destruct (Cache.getProfile t1 did st) as [[d|] st1]; [reflexivity|].
  destruct net as [s| |p]; [reflexivity | reflexivity | destruct (Hnet p eq_refl)].
Qed.

Lemma fetchProfileData_failure_witness :
  fetchProfileData 0 1 "did:plc:x" (ProfileNotOk 404) ∅ = Cache.getProfile 0 "did:plc:x" ∅.
Proof. apply fetchProfileData_failure. intros p. discriminate. Defined.

(** [fetchUserPosts] with the cache and no (or an empty) cursor: after a
    cache miss, the fetched page is returned and cached, and every
    initial-load call up to two minutes later returns that page and its
    cursor from the cache, whatever the network would give, and changes
    nothing. *)
Theorem fetchUserPosts_initial_cached (t t' : Z) (h : string) (cursor cursor' : option string)
    (page page' : list BlueskyThreadItem) (nc nc' : option string) (st : Storage) :
  Cache.truthy cursor = false -> Cache.truthy cursor' = false ->
  fst (Cache.getPosts t h st) = None ->
  t' <= t + Cache.POSTS_TTL ->
  fst (Cache.fetchUserPosts t h cursor true page nc st) = (page, nc) /\
  Cache.fetchUserPosts t' h cursor' true page' nc'
    (snd (Cache.fetchUserPosts t h cursor true page nc st)) =
    ((page, nc), snd (Cache.fetchUserPosts t h cursor true page nc st)).
Proof.
  intros Hc Hc' Hmiss Hle.
  assert (E1 : Cache.fetchUserPosts t h cursor true page nc st =
               ((page, nc), Cache.setPosts t h page nc true (snd (Cache.getPosts t h st)))).
  { unfold Cache.fetchUserPosts. rewrite Hc. simpl.
    destruct (Cache.getPosts t h st) as [o st1]. simpl in Hmiss. subst o. reflexivity. }
  rewrite E1. cbn [fst snd]. split; [reflexivity|]. unfold Cache.fetchUserPosts. rewrite Hc'.
  cbn [andb negb]. set (st1 := snd (Cache.getPosts t h st)).
  rewrite (getPosts_live t' h (Cache.setPosts t h page nc true st1)
             (mkPostsCacheData page nc h) t Cache.POSTS_TTL); [reflexivity| |exact Hle].
  unfold Cache.setPosts, Cache.set. rewrite lookup_insert_eq. reflexivity.
Qed.

Lemma fetchUserPosts_initial_cached_witness :
  fst (Cache.fetchUserPosts 0 "h" None true [thread_of post_a] (Some "c1") ∅) =
    ([thread_of post_a], Some "c1") /\
  Cache.fetchUserPosts 60 "h" (Some "") true [] None
    (snd (Cache.fetchUserPosts 0 "h" None true [thread_of post_a] (Some "c1") ∅)) =
    (([thread_of post_a], Some "c1"),
     snd (Cache.fetchUserPosts 0 "h" None true [thread_of post_a] (Some "c1") ∅)).
Proof.
  apply (fetchUserPosts_initial_cached 0 60 "h" None (Some ""));
    [reflexivity | reflexivity | reflexivity | unfold Cache.POSTS_TTL; lia].
Defined.

Lemma getPosts_same_data (t t' : Z) (h : string) (st : Storage) (d d' : PostsCacheData) :
  fst (Cache.getPosts t h st) = Some d' -> fst (Cache.getPosts t' h st) = Some d -> d' = d.
Proof.
  unfold Cache.getPosts, Cache.get.
  destruct (st !! Cache.getKey (Cache.posts_key h)) as [[data ts ex| |]|]; simpl; try discriminate.
  destruct (Cache.isExpired t ts ex), (Cache.isExpired t' ts ex); destruct data; simpl;
    try discriminate; congruence.
Qed.

(** [preloadNextBatch] on an entry live at [now] with a non-empty cursor
    [c]: the page fetched for [c] is written by [fetchUserPosts] at
    [fetchedAt] as a later-page [setPosts], after the cached list if the
    entry is still live then, alone if it expired during the fetch; the
    de-duplicating [appendPosts] that follows (less than two minutes
    later) finds every URI of the page already cached and writes nothing.
    So the page is never checked for URIs already cached. *)
Theorem preload_appends_page (now fetchedAt appendedAt : Z) (h : string)
    (net : string -> list BlueskyThreadItem * option string) (st : Storage)
    (d : PostsCacheData) (c : string) :
  fst (Cache.getPosts now h st) = Some d -> cached_cursor d = Some c -> c <> ""%string ->
  appendedAt <= fetchedAt + Cache.POSTS_TTL ->
  Cache.preloadNextBatch now fetchedAt appendedAt h net st =
    Cache.setPosts fetchedAt h (fst (net c)) (snd (net c)) false st /\
  stored_posts h (Cache.preloadNextBatch now fetchedAt appendedAt h net st) =
    Some (match fst (Cache.getPosts fetchedAt h st) with
          | Some _ => cached_posts d
          | None => []
          end ++ fst (net c)).
Proof.
  intros Hg Hc Hne Htime.
  assert (Hg' : Cache.getPosts now h st = (Some d, st)).
  { destruct (Cache.getPosts now h st) as [o st1] eqn:E. simpl in Hg. subst o.
    pose proof E as E'. apply getPosts_some in E'. subst st1. reflexivity. }
  set (pre := match fst (Cache.getPosts fetchedAt h st) with
              | Some _ => cached_posts d
              | None => []
              end).
  assert (Hset : exists st', Cache.setPosts fetchedAt h (fst (net c)) (snd (net c)) false st =
    Cache.set fetchedAt (Cache.posts_key h)
      (PostsCache (mkPostsCacheData (pre ++ fst (net c)) (snd (net c)) h))
      (Some Cache.POSTS_TTL) st').
  { unfold Cache.setPosts, pre.
    destruct (Cache.getPosts fetchedAt h st) as [[d'|] st1] eqn:E; simpl; exists st1; [|reflexivity].
    rewrite (getPosts_same_data fetchedAt now h st d d'); [reflexivity | rewrite E; reflexivity | exact Hg]. }
  destruct Hset as [st' Hset].
  assert (Hpre : Cache.preloadNextBatch now fetchedAt appendedAt h net st =
                 Cache.setPosts fetchedAt h (fst (net c)) (snd (net c)) false st).
  { unfold Cache.preloadNextBatch. rewrite Hg', Hc.
    destruct (String.eqb_spec c ""); [contradiction|].
    unfold Cache.fetchUserPosts.
    assert (Ht : Cache.truthy (Some c) = true)
      by (unfold Cache.truthy; destruct (String.eqb_spec c ""); done).
    rewrite Ht. cbn [andb negb]. destruct (0 <? length (fst (net c)))%nat; [|reflexivity].
    rewrite Hset. unfold Cache.appendPosts.
    rewrite (getPosts_live appendedAt h _ (mkPostsCacheData (pre ++ fst (net c))
               (snd (net c)) h) fetchedAt Cache.POSTS_TTL).
    2: { unfold Cache.set. rewrite lookup_insert_eq. reflexivity. }
    2: { exact Htime. }
    rewrite unique_filter_gset. simpl.
    replace (List.filter _ (fst (net c))) with (@nil BlueskyThreadItem); [reflexivity|].
    symmetry. apply list_filter_none. intros x Hx.
    apply negb_false_iff, bool_decide_eq_true_2.
    apply list_elem_of_In. rewrite map_app. apply in_or_app. right. apply in_map, Hx. }
  split; [exact Hpre|].
  rewrite Hpre, Hset. unfold stored_posts, Cache.set. rewrite lookup_insert_eq. reflexivity.
Qed.

Lemma preload_appends_page_witness :
  fst (Cache.getPosts 200000 "h" (posts_store [thread_of post_a] (Some "c1"))) = None /\
  Cache.preloadNextBatch 1 200000 200000 "h" page2 (posts_store [thread_of post_a] (Some "c1")) =
    Cache.setPosts 200000 "h" (fst (page2 "c1")) (snd (page2 "c1")) false
      (posts_store [thread_of post_a] (Some "c1")) /\
  stored_posts "h" (Cache.preloadNextBatch 1 200000 200000 "h" page2
                      (posts_store [thread_of post_a] (Some "c1"))) =
    Some (match fst (Cache.getPosts 200000 "h" (posts_store [thread_of post_a] (Some "c1"))) with
          | Some _ => [thread_of post_a]
          | None => []
          end ++ fst (page2 "c1")).
Proof.
  split; [vm_compute; reflexivity|].
  apply (preload_appends_page 1 200000 200000 "h" page2 _
           (mkPostsCacheData [thread_of post_a] (Some "c1") "h"));
    [reflexivity | reflexivity | discriminate | unfold Cache.POSTS_TTL; lia].
Defined.

(** ** [getPostUrl] *)

Lemma split_slash_nonempty (s : string) : split_slash s <> [].
Proof.
  destruct s as [|c rest]; simpl; [discriminate|].
  destruct (Ascii.eqb c "/"%char); [discriminate|].
  destruct (split_slash rest); discriminate.
Qed.

Lemma split_slash_free (s : string) : slash_free s = true -> split_slash s = [s].
Proof.
  induction s as [|c rest IH]; simpl; [reflexivity|].
  unfold slash_free. simpl. intros H. apply andb_prop in H as [Hc Hr].
  rewrite IH by exact Hr. apply negb_true_iff in Hc. rewrite Hc. reflexivity.
Qed.

Lemma split_slash_app (p r : string) :
  split_slash (String.append p (String "/"%char r)) = split_slash p ++ split_slash r.
Proof.
  induction p as [|c p IH]; [reflexivity|].
  simpl. rewrite IH. destruct (Ascii.eqb c "/"%char); [reflexivity|].
  pose proof (split_slash_nonempty p) as Hne.
  destruct (split_slash p) as [|w ws]; [contradiction | reflexivity].
Qed.

Lemma last_app_nonempty {A} (l1 l2 : list A) (d : A) :
  l2 <> [] -> List.last (l1 ++ l2) d = List.last l2 d.
Proof.
  intros Hne. induction l1 as [|x xs IH]; [reflexivity|].
  rewrite <- app_comm_cons. simpl. rewrite <- IH.
  destruct (xs ++ l2) eqn:E; [|reflexivity].
  apply app_eq_nil in E as [_ ->]. contradiction.
Qed.

(** [getPostUrl] takes as post id the text after the last slash of the
    URI: for [prefix/rkey] with a slash-free [rkey] (possibly empty, for
    a URI ending in a slash) the link is
    [https://bsky.app/profile/<handle>/post/<rkey>]; a URI without any
    slash is used whole as the id. *)
Theorem getPostUrl_last_segment (prefix rkey handle : string) :
  slash_free rkey = true ->
  getPostUrl (String.append prefix (String "/"%char rkey)) handle =
    String.append PROFILE_BASE (String.append handle (String.append "/post/" rkey)) /\
  getPostUrl rkey handle =
    String.append PROFILE_BASE (String.append handle (String.append "/post/" rkey)).
Proof.
  intros Hr. unfold getPostUrl. rewrite split_slash_app.
  rewrite last_app_nonempty by apply split_slash_nonempty.
  rewrite split_slash_free by exact Hr. split; reflexivity.
Qed.

Lemma getPostUrl_last_segment_witness :
  getPostUrl "at://did:plc:x/app.bsky.feed.post/3kabc" "aly.ruffruff.party" =
    "https://bsky.app/profile/aly.ruffruff.party/post/3kabc" /\
  getPostUrl "3kabc" "aly.ruffruff.party" =
    "https://bsky.app/profile/aly.ruffruff.party/post/3kabc".
Proof.
  exact (getPostUrl_last_segment "at://did:plc:x/app.bsky.feed.post" "3kabc"
           "aly.ruffruff.party" eq_refl).
Defined.

(** ** [extractImages] *)

(** [extractImages] returns a non-empty list only for an images view with
    images, or for a record-with-media view whose media is an images view
    with images; the list is then the [fullsize] URLs of those images, in
    order. Every other embed (none, external link, video, plain quoted
    record, record-with-media around a video) gives no images. *)
Theorem extractImages_sources (e : option BlueskyEmbed) :
  extractImages e = [] \/
  exists emb images, e = Some emb /\ images <> [] /\ extractImages e = map fullsize images /\
    ((embed_type emb = IMAGES_VIEW /\ embed_images emb = Some images) \/
     (embed_type emb = RECORD_WITH_MEDIA_VIEW /\
      exists media, embed_media emb = Some media /\ media_type media = IMAGES_VIEW /\
                    media_images media = Some images)).
Proof.
  destruct e as [emb|]; [|left; reflexivity]. simpl.
  destruct (String.eqb_spec (embed_type emb) IMAGES_VIEW) as [Ht|Ht];
    destruct (embed_images emb) as [images|] eqn:Hi.
  - destruct images as [|img imgs]; [left; reflexivity|].
    right. exists emb, (img :: imgs). split; [reflexivity|]. split; [discriminate|].
    split; [reflexivity|]. left. split; assumption.
  - assert (Hr : String.eqb (embed_type emb) RECORD_WITH_MEDIA_VIEW = false)
      by (rewrite Ht; reflexivity).
    rewrite Hr. left. reflexivity.
  - destruct (String.eqb_spec (embed_type emb) RECORD_WITH_MEDIA_VIEW) as [Hr|Hr];
      [|left; reflexivity].
    destruct (embed_media emb) as [media|] eqn:Hm; [|left; reflexivity].
    destruct (String.eqb_spec (media_type media) IMAGES_VIEW) as [Hmt|Hmt];
      [|left; reflexivity].
    destruct (media_images media) as [[|img imgs]|] eqn:Hmi; try (left; reflexivity).
    right. exists emb, (img :: imgs). split; [reflexivity|]. split; [discriminate|].
    split; [reflexivity|]. right. split; [exact Hr|]. exists media. auto.
  - destruct (String.eqb_spec (embed_type emb) RECORD_WITH_MEDIA_VIEW) as [Hr|Hr];
      [|left; reflexivity].
    destruct (embed_media emb) as [media|] eqn:Hm; [|left; reflexivity].
    destruct (String.eqb_spec (media_type media) IMAGES_VIEW) as [Hmt|Hmt];
      [|left; reflexivity].
    destruct (media_images media) as [[|img imgs]|] eqn:Hmi; try (left; reflexivity).
    right. exists emb, (img :: imgs). split; [reflexivity|]. split; [discriminate|].
    split; [reflexivity|]. right. split; [exact Hr|]. exists media. auto.
Qed.

(** ** [formatDate] *)

(** [formatDate] shows ["now"] exactly when less than a minute has
    passed, which includes every date in the future; otherwise the label
    is the elapsed time rounded down: minutes from 1 to 59, hours from 1
    to 23, days from 1 to 6, and the absolute date from seven days on. *)
Theorem formatDate_ranges (now d : Z) :
  (formatDate now (Some d) = LabelNow <-> now - d < 60000) /\
  match formatDate now (Some d) with
  | LabelNow => now - d < 60000
  | LabelMinutes m => 1 <= m <= 59 /\ m = (now - d) / 60000
  | LabelHours h => 1 <= h <= 23 /\ h = (now - d) / 3600000
  | LabelDays n => 1 <= n <= 6 /\ n = (now - d) / 86400000
  | LabelLocale => 7 * 86400000 <= now - d
  end.
Proof.
  unfold formatDate. set (x := now - d).
  replace (1000 * 60 * 60 * 24) with 86400000 by reflexivity.
  replace (1000 * 60 * 60) with 3600000 by reflexivity.
  replace (1000 * 60) with 60000 by reflexivity.
  pose proof (Z.mul_div_le x 60000 ltac:(lia)) as A1.
  pose proof (Z.mul_succ_div_gt x 60000 ltac:(lia)) as B1.
  pose proof (Z.mul_div_le x 3600000 ltac:(lia)) as A2.
  pose proof (Z.mul_succ_div_gt x 3600000 ltac:(lia)) as B2.
  pose proof (Z.mul_div_le x 86400000 ltac:(lia)) as A3.
  pose proof (Z.mul_succ_div_gt x 86400000 ltac:(lia)) as B3.
  set (q1 := x / 60000) in *. set (q2 := x / 3600000) in *. set (q3 := x / 86400000) in *.
  destruct (Z.ltb_spec q1 1); [split; [split; [lia | reflexivity] | lia]|].
  assert (Hn : forall l, l <> LabelNow -> (l = LabelNow <-> x < 60000))
    by (intros l Hl; split; [intros E; contradiction | lia]).
  destruct (Z.ltb_spec q1 60); [split; [apply Hn; discriminate | lia]|].
  destruct (Z.ltb_spec q2 24); [split; [apply Hn; discriminate | lia]|].
  destruct (Z.ltb_spec q3 7); (split; [apply Hn; discriminate | lia]).
Qed.

(** ** [formatPostText] *)

Lemma newlines_to_br_no_newline (s : JSString) : ~ In 10 (newlines_to_br s).
Proof.
  unfold newlines_to_br. induction s as [|c s IH]; simpl; [tauto|].
  rewrite in_app_iff. intros [Hc|Hs]; [|contradiction].
  destruct (Z.eqb_spec c 10) as [->|Hne].
  - vm_compute in Hc. intuition discriminate.
  - destruct Hc as [Hc|[]]. congruence.
Qed.

(** Whatever the facets, the output of [formatPostText] holds no newline
    character: every [\n] has become [<br>] (in the branch without facets
    whatever the link replacements produced). *)
Theorem formatPostText_no_newline (linkify : JSString -> JSString) (text : JSString)
    (facets : option (list Facet)) :
  ~ In 10 (formatPostText linkify text facets).
Proof.
  destruct facets as [[|f fs]|]; apply newlines_to_br_no_newline.
Qed.

Lemma apply_features_cases (fs : list FacetFeature) (b t a x : JSString) :
  apply_features fs b t a x =
    if has_anchor_feature fs then b ++ apply_features fs [] t [] t ++ a else x.
Proof.
  induction fs as [|f rest IH]; [reflexivity|]. simpl.
  destruct (String.eqb (feature_type f) LINK_FEATURE); simpl; [rewrite app_nil_r; reflexivity|].
  destruct (String.eqb (feature_type f) MENTION_FEATURE); simpl; [rewrite app_nil_r; reflexivity|].
  exact IH.
Qed.

Lemma decorate_plain (f : Facet) (t : JSString) :
  has_anchor_feature (features f) = false -> decorate f t = t.
Proof.
  intros H. unfold decorate. rewrite apply_features_cases, H. reflexivity.
Qed.

Lemma slice_range (s : JSString) (a b : Z) :
  0 <= a <= b -> b <= Z.of_nat (length s) ->
  slice s a b = take (Z.to_nat b - Z.to_nat a) (drop (Z.to_nat a) s).
Proof.
  intros Hab Hb. unfold slice, rel_index.
  destruct (Z.ltb_spec a 0); [lia|]. destruct (Z.ltb_spec b 0); [lia|].
  rewrite (Z.min_l a) by lia. rewrite (Z.min_l b) by lia.
  f_equal. lia.
Qed.

Lemma slice_from_range (s : JSString) (a : Z) :
  0 <= a <= Z.of_nat (length s) -> slice_from s a = drop (Z.to_nat a) s.
Proof.
  intros Ha. unfold slice_from. rewrite slice_range by lia.
  apply take_ge. rewrite length_drop. lia.
Qed.

Lemma disjoint_starts (len pos : Z) (fs : list Facet) :
  facets_disjoint len pos fs = true -> forall g, In g fs -> pos <= byteStart g.
Proof.
  revert pos. induction fs as [|f rest IH]; intros pos H g Hg; [destruct Hg|].
  simpl in H. apply andb_prop in H as [H H4]. apply andb_prop in H as [H H3].
  apply andb_prop in H as [H1 H2]. apply Z.leb_le in H1. apply Z.ltb_lt in H2.
  destruct Hg as [<-|Hg]; [exact H1|]. specialize (IH _ H4 g Hg). lia.
Qed.

Lemma insert_sorted_last {A} (cmp : A -> A -> Z) (x : A) (l : list A) :
  (forall y, In y l -> 0 < cmp x y) -> insert_sorted cmp x l = l ++ [x].
Proof.
  induction l as [|y ys IH]; intros H; [reflexivity|]. simpl.
  destruct (Z.leb_spec (cmp x y) 0) as [Hle|_].
  - specialize (H y (or_introl eq_refl)). lia.
  - f_equal. apply IH. intros z Hz. apply H. right. exact Hz.
Qed.

Lemma sort_disjoint_rev (len pos : Z) (fs : list Facet) :
  facets_disjoint len pos fs = true -> array_sort by_start_desc fs = rev fs.
Proof.
  revert pos. induction fs as [|f rest IH]; intros pos H; [reflexivity|].
  pose proof H as H0. simpl in H. apply andb_prop in H as [H H4].
  apply andb_prop in H as [H _]. apply andb_prop in H as [_ H2]. apply Z.ltb_lt in H2.
  simpl. rewrite (IH _ H4). apply insert_sorted_last. intros y Hy.
  apply in_rev in Hy. pose proof (disjoint_starts _ _ _ H4 y Hy). unfold by_start_desc. lia.
Qed.

Lemma fold_left_rev_fold_right {A B} (g : B -> A -> B) (l : list A) (i : B) :
  fold_left g (rev l) i = fold_right (fun x acc => g acc x) i l.
Proof.
  induction l as [|x xs IH]; [reflexivity|]. simpl. rewrite fold_left_app, IH. reflexivity.
Qed.

Lemma render_fold (text : JSString) (fs : list Facet) (pos : Z) :
  facets_disjoint (Z.of_nat (length text)) pos fs = true ->
  0 <= pos <= Z.of_nat (length text) ->
  fold_right (fun f acc => apply_facet acc f) text fs =
    take (Z.to_nat pos) text ++ render_facets text pos fs.
Proof.
  revert pos. induction fs as [|f rest IH]; intros pos H Hpos.
  - simpl. rewrite slice_from_range by lia. symmetry. apply take_drop.
  - simpl in H. apply andb_prop in H as [H H4]. apply andb_prop in H as [H H3].
    apply andb_prop in H as [H1 H2]. apply Z.leb_le in H1. apply Z.ltb_lt in H2.
    apply Z.leb_le in H3.
    set (s := byteStart f) in *. set (e := byteEnd f) in *.
    simpl. rewrite (IH e H4) by lia. set (R := render_facets text e rest).
    set (X := take (Z.to_nat e) text ++ R).
    assert (HlenT : length (take (Z.to_nat e) text) = Z.to_nat e)
      by (rewrite length_take; lia).
    assert (HlenX : (Z.to_nat e <= length X)%nat)
      by (unfold X; rewrite length_app; lia).
    assert (Hb : slice X 0 s = take (Z.to_nat s) text).
    { rewrite slice_range by lia. simpl. rewrite Nat.sub_0_r. unfold X.
      replace (Z.to_nat 0) with 0%nat by reflexivity. rewrite drop_0.
      rewrite take_app_le by lia. rewrite take_take. f_equal. lia. }
    assert (Hft : slice X s e = drop (Z.to_nat s) (take (Z.to_nat e) text)).
    { rewrite slice_range by lia. unfold X. rewrite drop_app_le by lia.
      rewrite take_app_le by (rewrite length_drop; lia).
      apply take_ge. rewrite length_drop. lia. }
    assert (Ha : slice_from X e = R).
    { rewrite slice_from_range by lia. unfold X.
      rewrite drop_app_le by lia. rewrite drop_ge by lia. reflexivity. }
    assert (Hst : slice text s e = drop (Z.to_nat s) (take (Z.to_nat e) text)).
    { rewrite slice_range by lia. rewrite take_drop_commute. f_equal. f_equal. lia. }
    assert (Hps : take (Z.to_nat pos) text ++ slice text pos s = take (Z.to_nat s) text).
    { rewrite slice_range by lia. rewrite take_take_drop. f_equal. lia. }
    unfold apply_facet. fold s e. rewrite Hb, Hft, Ha, Hst, app_assoc, Hps.
    rewrite apply_features_cases. unfold decorate.
    destruct (has_anchor_feature (features f)) eqn:Hanc; [reflexivity|].
    rewrite apply_features_cases, Hanc. unfold X.
    rewrite <- (take_drop (Z.to_nat s) (take (Z.to_nat e) text)) at 1.
    rewrite take_take, <- app_assoc. f_equal. f_equal. lia.
Qed.

(** With facets that are non-empty, listed in increasing order, do not
    overlap and lie within the text (offsets taken, as [slice] does, as
    UTF-16 indices), [formatPostText] wraps each facet's own text in its
    link or mention anchor and keeps every piece between facets: the
    right-to-left processing never shifts a facet that is still to come. *)
Theorem formatPostText_facets (linkify : JSString -> JSString) (text : JSString)
    (fs : list Facet) :
  fs <> [] ->
  facets_disjoint (Z.of_nat (length text)) 0 fs = true ->
  formatPostText linkify text (Some fs) = newlines_to_br (render_facets text 0 fs).
Proof.
  intros Hne Hd.
  assert (Hf : formatPostText linkify text (Some fs) = format_facets text fs)
    by (destruct fs; [contradiction | reflexivity]).
  rewrite Hf. unfold format_facets. rewrite (sort_disjoint_rev _ _ _ Hd).
  rewrite fold_left_rev_fold_right, (render_fold text fs 0 Hd) by lia. reflexivity.
Qed.

Lemma formatPostText_facets_witness :
  formatPostText id sample_text (Some sample_facets) =
    newlines_to_br (render_facets sample_text 0 sample_facets).
Proof.
  apply formatPostText_facets; [discriminate | vm_compute; reflexivity].
Defined.

(** Facets whose features are neither links nor mentions (hashtags, for
    instance) change nothing, wherever their offsets point: the output is
    the text with its newlines turned into [<br>]. *)
Theorem formatPostText_ignores_other_features (linkify : JSString -> JSString)
    (text : JSString) (fs : list Facet) :
  fs <> [] ->
  (forall f ft, In f fs -> In ft (features f) ->
     feature_type ft <> LINK_FEATURE /\ feature_type ft <> MENTION_FEATURE) ->
  formatPostText linkify text (Some fs) = newlines_to_br text.
Proof.
  intros Hne Hall.
  assert (Hf : formatPostText linkify text (Some fs) = format_facets text fs)
    by (destruct fs; [contradiction | reflexivity]).
  rewrite Hf. unfold format_facets. f_equal.
  assert (Hs : forall f, In f (array_sort by_start_desc fs) -> has_anchor_feature (features f) = false).
  { intros f Hin. apply array_sort_In in Hin. unfold has_anchor_feature.
    apply not_true_iff_false. intros Hex. apply existsb_exists in Hex as [ft [Hft Hty]].
    destruct (Hall f ft Hin Hft) as [Hl Hm]. apply orb_true_iff in Hty as [Ht|Ht];
      apply String.eqb_eq in Ht; contradiction. }
  revert Hs. generalize (array_sort by_start_desc fs) as l. intros l.
  generalize text as acc. induction l as [|f l IH]; intros acc Hs; [reflexivity|].
  simpl. unfold apply_facet at 2. rewrite apply_features_cases.
  rewrite (Hs f (or_introl eq_refl)). apply IH. intros g Hg. apply Hs. right. exact Hg.
Qed.

Lemma formatPostText_ignores_other_features_witness :
  formatPostText id sample_text
    (Some [mkFacet 4 15 [mkFeature "app.bsky.richtext.facet#tag" None None]]) =
  newlines_to_br sample_text.
Proof.
  apply formatPostText_ignores_other_features; [discriminate|].
  intros f ft [<-|[]] [<-|[]]. split; discriminate.
Defined.

(** A link facet that starts at or past the end of the text (as UTF-8
    byte offsets of a text with non-ASCII characters can) adds an empty
    link after the whole text. *)
Theorem formatPostText_facet_past_end (linkify : JSString -> JSString) (text : JSString)
    (f : Facet) (ft : FacetFeature) (rest : list FacetFeature) :
  Z.of_nat (length text) <= byteStart f <= byteEnd f ->
  features f = ft :: rest -> feature_type ft = LINK_FEATURE ->
  formatPostText linkify text (Some [f]) =
    newlines_to_br (text ++ link_html (template (feature_uri ft)) []).
Proof.
  intros Hb Hf Ht. simpl. unfold format_facets. simpl. f_equal.
  unfold apply_facet, slice_from, slice, rel_index.
  destruct (Z.ltb_spec 0 0); [lia|]. destruct (Z.ltb_spec (byteStart f) 0); [lia|].
  destruct (Z.ltb_spec (byteEnd f) 0); [lia|].
  destruct (Z.ltb_spec (Z.of_nat (length text)) 0); [lia|].
  set (L := Z.of_nat (length text)) in *.
  replace (Z.min (byteStart f) L) with L by lia. replace (Z.min (byteEnd f) L) with L by lia.
  replace (Z.min 0 L) with 0 by lia. replace (Z.min L L) with L by lia.
  rewrite Z.sub_diag, Z.sub_0_r. unfold L. rewrite Nat2Z.id.
  replace (Z.to_nat 0) with 0%nat by reflexivity. rewrite drop_0, take_ge by lia.
  rewrite Hf. simpl. rewrite Ht, String.eqb_refl. rewrite app_nil_r. reflexivity.
Qed.

Lemma formatPostText_facet_past_end_witness :
  formatPostText id (units "caf") (Some [mkFacet 5 20 [mkFeature LINK_FEATURE None None]]) =
    newlines_to_br (units "caf" ++ link_html (template None) []).
Proof.
  apply (formatPostText_facet_past_end id (units "caf") _
           (mkFeature LINK_FEATURE None None) []); [simpl; lia | reflexivity | reflexivity].
Defined.

(** ** Edge cases of the thread builder *)

Lemma roots_entry (posts : list BlueskyFeedItem) (m : nat) :
  In m (snd (build_pass (index_posts 0 posts ∅) posts)) ->
  exists it, In it posts /\ unattached (index_posts 0 posts ∅) it = true /\
             node_of (index_posts 0 posts ∅) it = m.
Proof.
  destruct (build_pass_spec posts) as [Hrs _]. rewrite Hrs.
  intros Hin. apply in_map_iff in Hin as [it [Hn Hit]]. apply filter_In in Hit as [Hit Hu].
  exists it. auto.
Qed.

Lemma children_entry (posts : list BlueskyFeedItem) (c m : nat) :
  In m (arena_children (fst (build_pass (index_posts 0 posts ∅) posts)) c) ->
  exists it, In it posts /\ attached_to (index_posts 0 posts ∅) c it = true /\
             node_of (index_posts 0 posts ∅) it = m.
Proof.
  destruct (build_pass_spec posts) as [_ Hch]. rewrite Hch.
  intros Hin. apply in_map_iff in Hin as [it [Hn Hit]]. apply filter_In in Hit as [Hit Ha].
  exists it. auto.
Qed.

(** With its URI unique in the page, the entry at position [n] is the only
    entry whose node is [n]. *)
Lemma node_unique_entry (posts : list BlueskyFeedItem) (n : nat) (it : BlueskyFeedItem) :
  posts !! n = Some it ->
  (forall j it', posts !! j = Some it' -> uri (post it') = uri (post it) -> j = n) ->
  index_posts 0 posts ∅ !! uri (post it) = Some n /\
  forall it', In it' posts -> node_of (index_posts 0 posts ∅) it' = n -> it' = it.
Proof.
  intros Hn Huniq.
  assert (Hin : In it posts) by (apply list_elem_of_In; eapply list_elem_of_lookup_2; exact Hn).
  assert (Hat : forall k m, index_posts 0 posts ∅ !! k = Some m ->
                exists it3, posts !! m = Some it3 /\ uri (post it3) = k).
  { intros k m Hk. destruct (index_posts_sound 0 posts ∅ k m Hk) as [He | [_ [it3 [H3 Hu]]]];
      [rewrite lookup_empty in He; discriminate|].
    rewrite Nat.sub_0_r in H3. eauto. }
  assert (Hpm : index_posts 0 posts ∅ !! uri (post it) = Some n).
  { pose proof (node_of_lookup posts it Hin) as Hl. rewrite Hl.
    destruct (Hat _ _ Hl) as [it3 [H3 Hu]]. f_equal. exact (Huniq _ _ H3 Hu). }
  split; [exact Hpm|].
  intros it' Hin' Hnode.
  pose proof (node_of_lookup posts it' Hin') as Hl'. rewrite Hnode in Hl'.
  destruct (Hat _ _ Hl') as [it3 [H3 Hu]]. rewrite Hn in H3. injection H3 as <-.
  apply list_elem_of_In, list_elem_of_lookup_1 in Hin' as [j Hj].
  pose proof (Huniq j it' Hj (eq_sym Hu)) as ->. rewrite Hn in Hj. injection Hj as ->.
  reflexivity.
Qed.

(** A reply whose parent URI is its own URI (unique in the page) is lost by
    [groupPostsIntoThreads]: it is not a root, and it lies in the tree of
    no root, so it is not shown. *)
Theorem self_reply_dropped (fuel : nat) (posts : list BlueskyFeedItem) (n : nat)
    (it : BlueskyFeedItem) (r : ReplyRef) (roots : list nat) (ar : Arena) :
  posts !! n = Some it ->
  reply (record (post it)) = Some r -> parent_uri r = uri (post it) ->
  (forall j it', posts !! j = Some it' -> uri (post it') = uri (post it) -> j = n) ->
  groupPostsIntoThreads fuel posts = Some (roots, ar) ->
  ~ In n roots /\ forall r0, In r0 roots -> ~ reach (arena_children ar) r0 n.
Proof.
  intros Hn Hr Hp Huniq Hg.
  destruct (node_unique_entry posts n it Hn Huniq) as [Hpm Honly].
  destruct (group_spec fuel posts roots ar Hg) as (Hroots & Hinv & _).
  set (pm := index_posts 0 posts ∅) in *.
  set (pre := arena_children (fst (build_pass pm posts))) in *.
  assert (Hnot : ~ In n roots).
  { intros Hin. rewrite Hroots in Hin. apply array_sort_In in Hin.
    destruct (roots_entry posts n Hin) as [it' [Hin' [Hu Hnode]]].
    rewrite (Honly it' Hin' Hnode) in Hu. unfold unattached in Hu. rewrite Hr, Hp in Hu.
    fold pm in Hu. rewrite Hpm in Hu. apply bool_decide_eq_true_1 in Hu. discriminate. }
  split; [exact Hnot|].
  assert (Hback : forall a b, reach pre a b -> b = n -> a = n).
  { intros a b Hra. induction Hra as [a|a c m Hc _ IH]; intros Hb; [exact Hb|].
    specialize (IH Hb). subst c. destruct (children_entry posts a n Hc) as [it' [Hin' [Ha Hnode]]].
    rewrite (Honly it' Hin' Hnode) in Ha. unfold attached_to in Ha. rewrite Hr, Hp in Ha.
    fold pm in Ha. rewrite Hpm in Ha. apply bool_decide_eq_true_1 in Ha.
    injection Ha as ->. reflexivity. }
  intros r0 Hr0 Hreach. apply (reach_final posts pre ar r0 n Hinv) in Hreach.
  pose proof (Hback r0 n Hreach eq_refl). subst r0. contradiction.
Qed.

Lemma self_reply_dropped_witness :
  exists roots ar, groupPostsIntoThreads 3 self_reply_feed = Some (roots, ar) /\
    ~ In 0%nat roots /\ forall r0, In r0 roots -> ~ reach (arena_children ar) r0 0%nat.
Proof.
  destruct (groupPostsIntoThreads 3 self_reply_feed) as [[roots ar]|] eqn:E.
  - exists roots, ar. split; [reflexivity|].
    apply (self_reply_dropped 3 self_reply_feed 0 (plain self_reply_post)
             (mkReplyRef "at://s" "at://s")); try reflexivity; [|exact E].
    intros [|[|j]] it' Hj Hu; [reflexivity | | discriminate Hj].
    injection Hj as <-. discriminate Hu.
  - vm_compute in E. discriminate E.
Defined.

Lemma nodup_map_filter {A B} (f : A -> B) (P : A -> bool) (l : list A) (i j : nat) (a b : A) :
  NoDup (map f (List.filter P l)) -> l !! i = Some a -> l !! j = Some b ->
  P a = true -> P b = true -> f a = f b -> i = j.
Proof.
  revert i j. induction l as [|x xs IH]; intros i j Hnd Hi Hj Pa Pb Hf; [discriminate Hi|].
  assert (Hin : forall k y, xs !! k = Some y -> P y = true -> In (f y) (map f (List.filter P xs))).
  { intros k y Hk Py. apply in_map, filter_In. split; [|exact Py].
    apply list_elem_of_In. eapply list_elem_of_lookup_2. exact Hk. }
  simpl in Hnd.
  destruct i as [|i], j as [|j]; simpl in Hi, Hj; [reflexivity| | |].
  - injection Hi as <-. rewrite Pa in Hnd. apply NoDup_cons in Hnd as [Hn _].
    exfalso. apply Hn. rewrite Hf. apply list_elem_of_In. exact (Hin j b Hj Pb).
  - injection Hj as <-. rewrite Pb in Hnd. apply NoDup_cons in Hnd as [Hn _].
    exfalso. apply Hn. rewrite <- Hf. apply list_elem_of_In. exact (Hin i a Hi Pa).
  - f_equal. apply (IH i j); try assumption.
    destruct (P x); [apply NoDup_cons in Hnd as [_ Hnd] |]; exact Hnd.
Qed.

(** Two top-level entries with the same URI (the author feed lists a
    pinned post a second time) make [groupPostsIntoThreads] list the same
    node twice among its roots: the thread is shown twice. *)
Theorem duplicate_uri_roots (fuel : nat) (posts : list BlueskyFeedItem) (i j : nat)
    (a b : BlueskyFeedItem) (roots : list nat) (ar : Arena) :
  posts !! i = Some a -> posts !! j = Some b -> i <> j -> uri (post a) = uri (post b) ->
  reply (record (post a)) = None -> reply (record (post b)) = None ->
  groupPostsIntoThreads fuel posts = Some (roots, ar) ->
  ~ NoDup roots.
Proof.
  intros Ha Hb Hij Hu Hra Hrb Hg Hnd.
  destruct (group_spec fuel posts roots ar Hg) as (Hroots & _ & _).
  destruct (build_pass_spec posts) as [Hrs _].
  set (pm := index_posts 0 posts ∅) in *.
  assert (Hp : Permutation roots (map (node_of pm) (List.filter (unattached pm) posts))).
  { rewrite Hroots, <- Hrs. apply array_sort_perm. }
  apply NoDup_ListNoDup, (Permutation_NoDup Hp), NoDup_ListNoDup in Hnd. apply Hij.
  apply (nodup_map_filter (node_of pm) (unattached pm) posts i j a b Hnd Ha Hb).
  - unfold unattached. rewrite Hra. reflexivity.
  - unfold unattached. rewrite Hrb. reflexivity.
  - unfold node_of. rewrite Hu. reflexivity.
Qed.

Lemma duplicate_uri_roots_witness :
  exists roots ar, groupPostsIntoThreads 3 [plain post_a; plain post_a] = Some (roots, ar) /\
    roots = [1; 1]%nat /\ ~ NoDup roots.
Proof.
  destruct (groupPostsIntoThreads 3 [plain post_a; plain post_a]) as [[roots ar]|] eqn:E.
  - exists roots, ar. split; [reflexivity|].
    pose proof (duplicate_uri_roots 3 [plain post_a; plain post_a] 0 1 (plain post_a) (plain post_a)
                  roots ar eq_refl eq_refl ltac:(discriminate) eq_refl eq_refl eq_refl E) as H.
    vm_compute in E. injection E as <- _. split; [reflexivity | exact H].
  - vm_compute in E. discriminate E.
Defined.

Lemma forEach_total (posts : list BlueskyFeedItem) (pre : nat -> list nat) (f : nat)
      (IHf : forall n ar, children_inv posts pre ar -> depth_bounded pre f n ->
         exists ar', sortThreadChildren posts f n ar = Some ar' /\ children_inv posts pre ar')
      (cs : list nat) :
  forall s, children_inv posts pre s -> (forall c, In c cs -> depth_bounded pre f c) ->
  exists s', forEach_opt (sortThreadChildren posts f) cs s = Some s' /\ children_inv posts pre s'.
Proof.
  induction cs as [|c cs IH]; intros s Hs Hb; simpl; [eauto|].
  destruct (IHf c s Hs (Hb c (or_introl eq_refl))) as [s1 [-> Hs1]].
  apply IH; [exact Hs1 | intros c' Hc'; apply Hb; right; exact Hc'].
Qed.

Lemma sort_total (posts : list BlueskyFeedItem) (pre : nat -> list nat) (fuel : nat) :
  forall n ar, children_inv posts pre ar -> depth_bounded pre fuel n ->
  exists ar', sortThreadChildren posts fuel n ar = Some ar' /\ children_inv posts pre ar'.
Proof.
  induction fuel as [|f IH]; intros n ar Hinv Hb; [destruct Hb|].
  simpl in Hb.
  set (ar1 := set_children ar n (array_sort (oldest_first posts) (arena_children ar n))).
  change (exists ar', forEach_opt (sortThreadChildren posts f) (arena_children ar1 n) ar1 = Some ar'
                      /\ children_inv posts pre ar').
  assert (Hn1 : arena_children ar1 n = array_sort (oldest_first posts) (pre n)).
  { unfold ar1, set_children, upd. simpl. rewrite Nat.eqb_refl.
    destruct (Hinv n) as [-> | ->]; [reflexivity|].
    apply array_sort_idem, oldest_first_flip. }
  assert (Hi1 : children_inv posts pre ar1).
  { intros m. destruct (Nat.eqb_spec m n) as [->|Hne]; [right; exact Hn1|].
    unfold ar1, set_children, upd. simpl. rewrite (proj2 (Nat.eqb_neq m n) Hne). apply Hinv. }
  apply (forEach_total posts pre f IH); [exact Hi1|].
  intros c Hc. rewrite Hn1 in Hc. apply array_sort_In in Hc. exact (Hb c Hc).
Qed.

Section UniqueUris.
Variable posts : list BlueskyFeedItem.
Hypothesis Huniq : forall i j a b, posts !! i = Some a -> posts !! j = Some b ->
  uri (post a) = uri (post b) -> i = j.

Lemma unique_node_of (it : BlueskyFeedItem) :
  In it posts -> posts !! node_of (index_posts 0 posts ∅) it = Some it.
Proof.
  intros Hin. pose proof (node_of_lookup posts it Hin) as Hl.
  destruct (index_posts_sound 0 posts ∅ _ _ Hl) as [He | [_ [it3 [H3 Hu]]]];
    [rewrite lookup_empty in He; discriminate|].
  rewrite Nat.sub_0_r in H3.
  apply list_elem_of_In, list_elem_of_lookup_1 in Hin as [j Hj].
  pose proof (Huniq _ _ _ _ H3 Hj Hu) as Hc. rewrite Hc. exact Hj.
Qed.

Lemma children_parent (n c : nat) :
  In c (arena_children (fst (build_pass (index_posts 0 posts ∅) posts)) n) ->
  (c < length posts)%nat /\ parent_node posts (index_posts 0 posts ∅) c = Some n.
Proof.
  intros Hc. destruct (children_entry posts n c Hc) as [it [Hin [Ha <-]]].
  pose proof (unique_node_of it Hin) as Hl.
  split; [eapply lookup_lt_Some; exact Hl|].
  unfold parent_node. rewrite Hl. unfold attached_to in Ha.
  destruct (reply (record (post it))); [|discriminate Ha].
  apply bool_decide_eq_true_1 in Ha. exact Ha.
Qed.

Lemma roots_parent (r : nat) :
  In r (snd (build_pass (index_posts 0 posts ∅) posts)) ->
  (r < length posts)%nat /\ parent_node posts (index_posts 0 posts ∅) r = None.
Proof.
  intros Hr. destruct (roots_entry posts r Hr) as [it [Hin [Hu <-]]].
  pose proof (unique_node_of it Hin) as Hl.
  split; [eapply lookup_lt_Some; exact Hl|].
  unfold parent_node. rewrite Hl. unfold unattached in Hu.
  destruct (reply (record (post it))); [|reflexivity].
  apply bool_decide_eq_true_1 in Hu. exact Hu.
Qed.

(** A node whose ancestors up to a root form the chain [n :: l] has its
    tree bounded by the nodes not yet on the chain. *)
Lemma chain_depth_bounded (d n : nat) (l : list nat) :
  (d + length l = length posts)%nat -> NoDup (n :: l) ->
  (forall x, In x (n :: l) -> (x < length posts)%nat) ->
  parent_chain (parent_node posts (index_posts 0 posts ∅)) (n :: l) ->
  depth_bounded (arena_children (fst (build_pass (index_posts 0 posts ∅) posts))) d n.
Proof.
  revert n l. induction d as [|d IH]; intros n l Hd Hnd Hlt Hch.
  - apply NoDup_ListNoDup in Hnd.
    assert (Hinc : incl (n :: l) (seq 0 (length posts))).
    { intros x Hx. apply in_seq. specialize (Hlt x Hx). lia. }
    pose proof (NoDup_incl_length Hnd Hinc) as Hlen.
    rewrite length_seq in Hlen. simpl in Hlen. lia.
  - simpl. intros c Hc. destruct (children_parent n c Hc) as [Hcl Hpc].
    assert (Hfresh : c ∉ n :: l).
    { intros Hin. apply list_elem_of_lookup_1 in Hin as [i Hi].
      pose proof (Hch i c Hi) as Hp. rewrite Hpc in Hp.
      pose proof (NoDup_lookup (n :: l) 0 (S i) n Hnd eq_refl (eq_sym Hp)). discriminate. }
    apply (IH c (n :: l)).
    + simpl in *. lia.
    + apply NoDup_cons_2; assumption.
    + intros x [<-|Hx]; [exact Hcl | exact (Hlt x Hx)].
    + intros [|i] x Hi.
      * injection Hi as <-. exact Hpc.
      * exact (Hch i x Hi).
Qed.

End UniqueUris.

(** When the URIs in the page are unique, [groupPostsIntoThreads] always
    returns: the recursion of [sortThreadChildren] never gets past depth
    [length posts], so that much fuel is enough, whatever the reply
    structure (cycles among replies are never reached from a root). *)
Theorem group_total_unique (posts : list BlueskyFeedItem) :
  (forall i j a b, posts !! i = Some a -> posts !! j = Some b ->
     uri (post a) = uri (post b) -> i = j) ->
  exists roots ar, groupPostsIntoThreads (length posts) posts = Some (roots, ar).
Proof.
  intros Huniq. unfold groupPostsIntoThreads.
  pose proof (roots_parent posts Huniq) as Hroots.
  pose proof (chain_depth_bounded posts Huniq (length posts)) as Hdepth.
  destruct (build_pass (index_posts 0 posts ∅) posts) as [ar0 rs] eqn:Eb.
  simpl in Hroots, Hdepth.
  destruct (forEach_total posts (arena_children ar0) (length posts)
              (sort_total posts (arena_children ar0) (length posts))
              (array_sort (newest_first posts) rs) ar0) as [ar' [-> _]].
  - intros m. left. reflexivity.
  - intros r Hr. apply array_sort_In in Hr. destruct (Hroots r Hr) as [Hlt Hp].
    apply (Hdepth r []).
    + simpl. lia.
    + apply NoDup_singleton.
    + intros x [<-|[]]. exact Hlt.
    + intros [|i] x Hi; [injection Hi as <-; exact Hp | destruct i; discriminate Hi].
  - eauto.
Qed.

Lemma group_total_unique_witness :
  exists roots ar, groupPostsIntoThreads (length thread_feed) thread_feed = Some (roots, ar).
Proof.
  apply group_total_unique.
  intros i j a b Ha Hb Hu.
  destruct i as [|[|[|[|[|i]]]]]; try discriminate Ha; injection Ha as <-;
  (destruct j as [|[|[|[|[|j]]]]]; try discriminate Hb; injection Hb as <-);
  solve [reflexivity | discriminate Hu].
Defined.
